(** * Circuit evaluator of the U = V D V† decomposition test

    Shallow embedding of [gates_to_matrix], of the inverse-circuit
    construction [V_dagger_circuit] and of the error metrics of the
    verification driver in [test_decomposition.py], with the diagonal case
    of the Walsh synthesizer [build_optimal_walsh_circuit], whose module is
    not among the sources, modelled from the specification.

    Conventions of the embedding.
    - numpy's [complex128] entries and Python floats are idealised as exact
      complex and real numbers (pairs of [R]); rounding is not modelled, so
      "within ε" is proved as exact equality.
    - Python integers that are never negative in the code (basis indices
      [i], [j], the dimension, the qubit count) are [nat]; qubit indices
      taken from the gate parameters are [Z], because a negative shift
      count raises.
    - Python exceptions are the [Raise] results of an error monad.
    - Python integers are unbounded and memory is not: the embedding takes
      both as unbounded, so [1 << s] always has a value for [s >= 0].  On a
      machine a shift too large to store raises [MemoryError] or
      [OverflowError] instead; the evaluator would use such a value only as
      an array index of at least [2^63], where the embedding raises
      [OverflowError].
    - numpy converts an index to a signed 64-bit integer (the platform is
      taken to be a 64-bit one): a Python integer of [2^63] or more raises
      [OverflowError] there, before any bounds check.
    - Dividing numpy floats never raises: a zero divisor gives [inf],
      [-inf] or [nan] (with a warning, which is not modelled).
    - Bit 0 of a basis index is qubit 0. *)

From Stdlib Require Strings.String Strings.Ascii.
From Stdlib Require Import Reals Lra Lia List ZArith Bool PeanoNat.
Import ListNotations.
Import String.StringSyntax.
Delimit Scope string_scope with string.
Bind Scope string_scope with String.string.

(** ** Complex numbers *)

Definition C : Type := (R * R)%type.

Definition C0 : C := (0%R, 0%R).
Definition C1 : C := (1%R, 0%R).
Definition Ci : C := (0%R, 1%R).

Definition Cplus (x y : C) : C := (fst x + fst y, snd x + snd y)%R.
Definition Copp (x : C) : C := (- fst x, - snd x)%R.
Definition Cminus (x y : C) : C := Cplus x (Copp y).
Definition Cmult (x y : C) : C :=
  (fst x * fst y - snd x * snd y, fst x * snd y + snd x * fst y)%R.
Definition Cconj (x : C) : C := (fst x, - snd x)%R.

(** [z * r] and [z / r] for a complex [z] and a float [r]. *)
Definition Cscal (z : C) (r : R) : C := (fst z * r, snd z * r)%R.
Definition Cdivr (z : C) (r : R) : C := (fst z / r, snd z / r)%R.

(** [np.abs] on a complex number. *)
Definition Cmod (z : C) : R := sqrt (fst z * fst z + snd z * snd z).

(** [np.exp] on a complex number. *)
Definition Cexp (z : C) : C :=
  (exp (fst z) * cos (snd z), exp (fst z) * sin (snd z))%R.

Definition Csum (l : list C) : C := fold_right Cplus C0 l.

(** ** Exceptions *)

(** [ValueError]: negative shift count.  [IndexError]: array index out of
    bounds.  [OverflowError]: a Python integer that does not fit the
    machine integer numpy indexes with.  [MemoryError]: no function of the
    embedding raises it; it only appears in statements, where Python may
    fail to build an integer that the embedding builds. *)
Inductive py_error : Set :=
| ValueError
| IndexError
| OverflowError
| MemoryError.

Inductive result (A : Type) : Type :=
| Ok (a : A)
| Raise (e : py_error).

Arguments Ok {A} a.
Arguments Raise {A} e.

Definition bind {A B : Type} (r : result A) (k : A -> result B) : result B :=
  match r with
  | Ok a => k a
  | Raise e => Raise e
  end.

Notation "x <- r ;; k" := (bind r (fun x => k))
  (at level 61, r at next level, right associativity).

(** ** Integer shifts

    [i >> s] and [i << s] on a non-negative [i]: a negative shift count
    raises [ValueError].  Integers are unbounded, so [i << s] has a value
    for every [s >= 0]; Python raises [MemoryError] or [OverflowError]
    when the shifted integer cannot be stored, which first happens far
    above [s = 63]. *)

Definition py_rshift (i : nat) (s : Z) : result nat :=
  if (s <? 0)%Z then Raise ValueError else Ok (Nat.shiftr i (Z.to_nat s)).

Definition py_lshift (i : nat) (s : Z) : result nat :=
  if (s <? 0)%Z then Raise ValueError else Ok (Nat.shiftl i (Z.to_nat s)).

(** Truth value of an integer in an [if]. *)
Definition truthy (b : nat) : bool := negb (b =? 0).

(** ** Matrices as nested arrays *)

Definition matrix : Type := list (list C).

Definition mget (M : matrix) (i j : nat) : C := nth j (nth i M []) C0.

Definition ncols (M : matrix) : nat := length (nth 0 M []).

(** [tabulate rows cols F] is the array with entry [F i j] at [i, j]. *)
Definition tabulate (rows cols : nat) (F : nat -> nat -> C) : matrix :=
  map (fun i => map (fun j => F i j) (seq 0 cols)) (seq 0 rows).

(** [np.eye(dim, dtype=np.complex128)] *)
Definition np_eye (dim : nat) : matrix :=
  tabulate dim dim (fun i j => if i =? j then C1 else C0).

Fixpoint upd {A : Type} (l : list A) (i : nat) (v : A) : list A :=
  match l, i with
  | [], _ => []
  | _ :: t, O => v :: t
  | h :: t, S i' => h :: upd t i' v
  end.

(** [M[i, j] = v] with non-negative indices.  numpy first converts both
    indices to signed 64-bit integers, which raises [OverflowError] for an
    index of [2^63] or more, and then checks the bounds, which raises
    [IndexError].  No array has [2^63] rows or columns, so an index within
    bounds is below [2^63] and the bounds test can come first. *)
Definition set_item (M : matrix) (i j : nat) (v : C) : result matrix :=
  if (i <? length M) && (j <? length (nth i M [])) then
    Ok (upd M i (upd (nth i M []) j v))
  else if (2 ^ 63 <=? Z.of_nat i)%Z || (2 ^ 63 <=? Z.of_nat j)%Z then
    Raise OverflowError
  else Raise IndexError.

(** [A @ B] *)
Definition matmul (A B : matrix) : matrix :=
  map (fun row =>
         map (fun j =>
                Csum (map (fun k => Cmult (nth k row C0) (mget B k j))
                          (seq 0 (length B))))
             (seq 0 (ncols B)))
      A.

(** [M.conj().T] *)
Definition dagger (M : matrix) : matrix :=
  tabulate (ncols M) (length M) (fun j i => Cconj (mget M i j)).

(** [M @ v] for a state vector [v]. *)
Definition matvec (M : matrix) (v : list C) : list C :=
  map (fun row =>
         Csum (map (fun k => Cmult (nth k row C0) (nth k v C0))
                   (seq 0 (length v))))
      M.

(** ** Gates and circuits

    A circuit is a list of [(gate_type, params)] tuples with [gate_type]
    one of ["CNOT"] (params [(control, target)]) and ["RZ"] (params
    [(angle, qubit)]). *)

Inductive gate : Type :=
| CNOT (control target : Z)
| RZ (angle : R) (qubit : Z).

Definition circuit : Type := list gate.

(** ** The evaluator [gates_to_matrix] *)

(** One iteration of the loop that builds the CNOT matrix. *)
Definition cnot_step (control target : Z) (acc : result matrix) (i : nat)
  : result matrix :=
  cnot <- acc ;;
  b <- py_rshift i control ;;
  if truthy (Nat.land b 1) then
    s <- py_lshift 1 target ;;
    let j := Nat.lxor i s in
    cnot <- set_item cnot i i C0 ;;
    set_item cnot j i C1
  else Ok cnot.

Definition cnot_matrix (dim : nat) (control target : Z) : result matrix :=
  fold_left (cnot_step control target) (seq 0 dim) (Ok (np_eye dim)).

(** One iteration of the loop that builds the RZ matrix. *)
Definition rz_step (angle : R) (qubit : Z) (acc : result matrix) (i : nat)
  : result matrix :=
  rz <- acc ;;
  b <- py_rshift i qubit ;;
  if truthy (Nat.land b 1) then
    set_item rz i i (Cexp (Cdivr (Cscal (Copp Ci) angle) 2))
  else
    set_item rz i i (Cexp (Cdivr (Cscal Ci angle) 2)).

Definition rz_matrix (dim : nat) (angle : R) (qubit : Z) : result matrix :=
  fold_left (rz_step angle qubit) (seq 0 dim) (Ok (np_eye dim)).

Definition gate_matrix (dim : nat) (g : gate) : result matrix :=
  match g with
  | CNOT control target => cnot_matrix dim control target
  | RZ angle qubit => rz_matrix dim angle qubit
  end.

(** One iteration of the loop over the circuit: [matrix = gate @ matrix]. *)
Definition gate_step (dim : nat) (acc : result matrix) (g : gate)
  : result matrix :=
  matrix <- acc ;;
  m <- gate_matrix dim g ;;
  Ok (matmul m matrix).

Definition gates_to_matrix (circuit : circuit) (num_qubits : nat)
  : result matrix :=
  let dim := 2 ^ num_qubits in
  fold_left (gate_step dim) circuit (Ok (np_eye dim)).

(** ** The inverse circuit built by the driver

    The gate list reversed, then the angle of every RZ negated and the
    CNOT parameters kept. *)

Definition negate_gate (g : gate) : gate :=
  match g with
  | CNOT control target => CNOT control target
  | RZ angle qubit => RZ (- angle) qubit
  end.

Definition V_dagger_circuit (V_circuit : circuit) : circuit :=
  map negate_gate (rev V_circuit).

(** ** Error metrics of the driver *)

(** [np.abs(M)], element-wise. *)
Definition np_abs (M : matrix) : list (list R) := map (map Cmod) M.

(** [A - B], element-wise, for arrays of one shape. *)
Definition mat_sub (A B : matrix) : matrix :=
  tabulate (length A) (ncols A) (fun i j => Cminus (mget A i j) (mget B i j)).

(** [np.max] of a real array: an empty array raises [ValueError]. *)
Definition np_max (M : list (list R)) : result R :=
  match concat M with
  | [] => Raise ValueError
  | x :: xs => Ok (fold_left Rmax xs x)
  end.

Definition difference (U_original U_reconstructed : matrix) : result R :=
  np_max (np_abs (mat_sub U_original U_reconstructed)).

(** A numpy float: a real number or one of the non-finite values. *)
Inductive np_float : Type :=
| Finite (x : R)
| PosInf
| NegInf
| NaN.

(** [x / y] on numpy floats never raises: a zero divisor gives [nan] for
    a zero dividend and an infinity of the dividend's sign otherwise (the
    divisor of the driver is a maximum of absolute values, so its zero is
    the positive one). *)
Definition np_divide (x y : R) : np_float :=
  if Req_EM_T y 0 then
    if Req_EM_T x 0 then NaN
    else if Rlt_dec 0 x then PosInf else NegInf
  else Finite (x / y).

Definition relative_error (U_original U_reconstructed : matrix)
  : result np_float :=
  d <- difference U_original U_reconstructed ;;
  m <- np_max (np_abs U_original) ;;
  Ok (np_divide d m).

Definition is_accurate (U_original U_reconstructed : matrix) : result bool :=
  d <- difference U_original U_reconstructed ;;
  Ok (if Rlt_dec d (1 / 10 ^ 6) then true else false).

(** ** Reading of a circuit on basis states

    Every gate matrix the evaluator builds has one non-zero entry per
    column: column [i] carries the weight [gate_phase g i] in row
    [gate_act g i]. *)

(** [e^{i t}] for a real [t]. *)
Definition Cexp_i (t : R) : C := (cos t, sin t).

Definition cnot_act (control target i : nat) : nat :=
  if Nat.testbit i control then Nat.lxor i (2 ^ target) else i.

Definition rz_phase (angle : R) (qubit i : nat) : C :=
  if Nat.testbit i qubit then Cexp_i (- (angle / 2)) else Cexp_i (angle / 2).

Definition gate_act (g : gate) (i : nat) : nat :=
  match g with
  | CNOT control target => cnot_act (Z.to_nat control) (Z.to_nat target) i
  | RZ _ _ => i
  end.

Definition gate_phase (g : gate) (i : nat) : C :=
  match g with
  | CNOT _ _ => C1
  | RZ angle qubit => rz_phase angle (Z.to_nat qubit) i
  end.

(** The first-listed gate acts first. *)
Fixpoint circuit_act (c : circuit) (i : nat) : nat :=
  match c with
  | [] => i
  | g :: c' => circuit_act c' (gate_act g i)
  end.

Fixpoint circuit_phase (c : circuit) (i : nat) : C :=
  match c with
  | [] => C1
  | g :: c' => Cmult (circuit_phase c' (gate_act g i)) (gate_phase g i)
  end.

(** The matrix with weight [w c] in row [f c] of column [c]. *)
Definition mono (dim : nat) (f : nat -> nat) (w : nat -> C) : matrix :=
  tabulate dim dim (fun r c => if r =? f c then w c else C0).

(** ** Which circuits the evaluator accepts *)

Definition qubit_ok (n : nat) (q : Z) : bool :=
  (0 <=? q)%Z && (q <? Z.of_nat n)%Z.

(** Indices in [0, n) and, for CNOT, control distinct from target. *)
Definition gate_ok (n : nat) (g : gate) : bool :=
  match g with
  | CNOT control target =>
      qubit_ok n control && qubit_ok n target && negb (control =? target)%Z
  | RZ _ qubit => qubit_ok n qubit
  end.

Definition circuit_ok (n : nat) (c : circuit) : bool := forallb (gate_ok n) c.

Definition cnot_distinct (g : gate) : bool :=
  match g with
  | CNOT control target => negb (control =? target)%Z
  | RZ _ _ => true
  end.

(** The exception, if any, that building the matrix of [g] raises.  A
    CNOT target of at least [n] makes the row index [i ^ (1 << target)]
    leave the array; from target 63 on that index no longer fits a signed
    64-bit integer. *)
Definition gate_error (n : nat) (g : gate) : option py_error :=
  match g with
  | CNOT control target =>
      if (control <? 0)%Z then Some ValueError
      else if (Z.of_nat n <=? control)%Z then None
      else if (target <? 0)%Z then Some ValueError
      else if (Z.of_nat n <=? target)%Z then
        Some (if (target <? 63)%Z then IndexError else OverflowError)
      else None
  | RZ _ qubit => if (qubit <? 0)%Z then Some ValueError else None
  end.

Fixpoint first_error (n : nat) (c : circuit) : option py_error :=
  match c with
  | [] => None
  | g :: c' =>
      match gate_error n g with
      | Some e => Some e
      | None => first_error n c'
      end
  end.


(** ** The two readings of the composition order *)

(** Apply the gates to a state vector one after the other, first-listed
    gate first. *)
Definition apply_gate (dim : nat) (v : result (list C)) (g : gate)
  : result (list C) :=
  x <- v ;; m <- gate_matrix dim g ;; Ok (matvec m x).

Definition apply_in_list_order (c : circuit) (n : nat) (v : list C)
  : result (list C) :=
  fold_left (apply_gate (2 ^ n)) c (Ok v).

(** Apply the gates to a state vector with the first-listed gate last. *)
Definition apply_first_gate_last (c : circuit) (n : nat) (v : list C)
  : result (list C) :=
  fold_right (fun g acc => apply_gate (2 ^ n) acc g) (Ok v) c.

(** The product [M(g_k) @ ... @ M(g_1)] written out on the list. *)
Fixpoint product_in_list_order (dim : nat) (c : circuit) : result matrix :=
  match c with
  | [] => Ok (np_eye dim)
  | g :: c' =>
      m <- gate_matrix dim g ;;
      rest <- product_in_list_order dim c' ;;
      Ok (matmul rest m)
  end.

(** ** The Walsh synthesizer, diagonal case *)

(** Modelled from the spec: the phase angle of a diagonal entry, the
    [np.angle] of the absent module [walsh_circuit_decomposition]
    ("the vector of diagonal phase angles"). *)
Definition Carg (z : C) : R :=
  if Rle_dec 0 (snd z) then acos (fst z / Cmod z)
  else (- acos (fst z / Cmod z))%R.

(** Sum of a list of reals. *)
Definition Rsum (l : list R) : R := fold_right Rplus 0%R l.

(** Exclusive or of the bits of [m] at the positions listed in [l]. *)
Definition xor_bits (m : nat) (l : list nat) : bool :=
  fold_right xorb false (map (Nat.testbit m) l).

(** Parity of the low [n] bits of [m]. *)
Definition parity (n m : nat) : bool := xor_bits m (seq 0 n).

(** Modelled from the spec: the Walsh basis function of the qubit subset
    [S] ("a parity of a subset of bits"), with values [1] and [-1]. *)
Definition walsh_sign (n S x : nat) : R :=
  if parity n (Nat.land S x) then (-1)%R else 1%R.

(** Modelled from the spec: the coefficient of the subset [S] in the
    Walsh-function basis expansion of the phase vector. *)
Definition walsh_coefficient (n : nat) (phases : list R) (S : nat) : R :=
  (Rsum (map (fun x => walsh_sign n S x * nth x phases 0) (seq 0 (2 ^ n)))
   / 2 ^ n)%R.

(** Modelled from the spec: the qubits of the subset [S], "each basis
    function corresponds to a subset of qubits", in increasing order. *)
Definition subset_qubits (n S : nat) : list nat :=
  filter (Nat.testbit S) (seq 0 n).

(** Modelled from the spec: the gates of one Walsh coefficient, absent from
    the sources: "a CNOT staircase into an ancilla-free helper qubit, one
    phase rotation, and the mirrored CNOT staircase back out".  The helper
    qubit is the lowest qubit of the subset. *)
Definition walsh_block (n S : nat) (a : R) : circuit :=
  match subset_qubits n S with
  | [] => []
  | t :: others =>
      let staircase := map (fun q => CNOT (Z.of_nat q) (Z.of_nat t)) others in
      staircase ++ RZ (2 * a) (Z.of_nat t) :: rev staircase
  end.

(** Modelled from the spec: "the vector of diagonal phase angles" of the
    input. *)
Definition diag_phases (D : matrix) : list R :=
  map (fun x => Carg (mget D x x)) (seq 0 (length D)).

(** Modelled from the spec: [build_optimal_walsh_circuit] of the absent
    module [walsh_circuit_decomposition], on a diagonal input: one block
    per non-trivial subset-parity term, [2^n - 1] of them; the term of the
    empty subset, the global phase, is dropped. *)
Definition build_optimal_walsh_circuit (D : matrix) : circuit :=
  let n := Nat.log2 (length D) in
  let phases := diag_phases D in
  flat_map (fun S => walsh_block n S (walsh_coefficient n phases S))
           (seq 1 (2 ^ n - 1)).

(** The dropped term: the Walsh coefficient of the empty subset, the mean
    of the phase angles. *)
Definition global_phase (D : matrix) : R :=
  walsh_coefficient (Nat.log2 (length D)) (diag_phases D) 0.

(** An array with [rows] rows of [cols] entries each. *)
Definition has_shape (rows cols : nat) (M : matrix) : Prop :=
  length M = rows /\ Forall (fun row => length row = cols) M.

(** A diagonal unitary of dimension [2^n]: zero off the diagonal, unit
    modulus on it. *)
Definition diagonal_unitary (n : nat) (D : matrix) : Prop :=
  has_shape (2 ^ n) (2 ^ n) D
  /\ (forall r c, r < 2 ^ n -> c < 2 ^ n -> r <> c -> mget D r c = C0)
  /\ (forall x, x < 2 ^ n -> Cmod (mget D x x) = 1%R).

(** The basis state vector [|k>] of dimension [dim]. *)
Definition basis_state (dim k : nat) : list C :=
  map (fun i => if i =? k then C1 else C0) (seq 0 dim).

(** ** The reconstruction and the checks of the driver *)

(** Steps 5 of the driver: the three circuits are evaluated in the order
    V, D, V† and multiplied as [(V @ D) @ V†]. *)
Definition reconstruct (V_circuit D_circuit : circuit) (qubits : nat)
  : result matrix :=
  V_reconstructed <- gates_to_matrix V_circuit qubits ;;
  D_reconstructed <- gates_to_matrix D_circuit qubits ;;
  V_dagger_reconstructed <-
    gates_to_matrix (V_dagger_circuit V_circuit) qubits ;;
  Ok (matmul (matmul V_reconstructed D_reconstructed) V_dagger_reconstructed).

(** The unitarity error of the reconstruction:
    [np.max(np.abs(U @ U.conj().T - np.eye(2**qubits)))]. *)
Definition identity_error (U_reconstructed : matrix) (qubits : nat)
  : result R :=
  let identity_check := matmul U_reconstructed (dagger U_reconstructed) in
  np_max (np_abs (mat_sub identity_check (np_eye (2 ^ qubits)))).

(** [np.diag] of a 2-D array: its main diagonal. *)
Definition np_diag_extract (M : matrix) : list C :=
  map (fun i => mget M i i) (seq 0 (Nat.min (length M) (ncols M))).

(** [np.diag] of a 1-D array: the square array with it on the diagonal. *)
Definition np_diag (d : list C) : matrix :=
  tabulate (length d) (length d)
           (fun i j => if i =? j then nth i d C0 else C0).

(** One entry of [allclose]: [|a - b| <= atol + rtol * |b|]. *)
Definition isclose (rtol atol : R) (a b : C) : bool :=
  if Rle_dec (Cmod (Cminus a b)) (atol + rtol * Cmod b) then true else false.

(** [np.allclose(a, b, rtol, atol)] for arrays of one shape. *)
Definition np_allclose (a b : matrix) (rtol atol : R) : bool :=
  forallb (fun i =>
             forallb (fun j => isclose rtol atol (mget a i j) (mget b i j))
                     (seq 0 (ncols a)))
          (seq 0 (length a)).

(** The diagonal check of step 2; [rtol] has numpy's default [1e-05]. *)
Definition is_diagonal (D_np : matrix) : bool :=
  let d_diag := np_diag_extract D_np in
  np_allclose D_np (np_diag d_diag) (1 / 10 ^ 5) (1 / 10 ^ 10).

(** A gate the evaluator builds a matrix for. *)
Definition gate_accepted (n : nat) (g : gate) : Prop :=
  match g with
  | CNOT control target =>
      (0 <= control)%Z
      /\ ((control < Z.of_nat n)%Z -> (0 <= target < Z.of_nat n)%Z)
  | RZ _ qubit => (0 <= qubit)%Z
  end.

Definition is_rz (g : gate) : bool :=
  match g with
  | RZ _ _ => true
  | CNOT _ _ => false
  end.

Definition is_cnot (g : gate) : bool := negb (is_rz g).

(** ** The dependency bootstrap of [install_prereqs.py]

    The script talks to its environment: it imports modules, looks for
    [conda] on the path and runs [conda] and [pip].  The environment is a
    state [World] with the answers it gives as parameters; what the script
    prints and runs is recorded as a list of events, in order. *)

Abbreviation string := String.string.

(** The escape character ['\033']. *)
Definition esc : string :=
  String.String (Ascii.ascii_of_nat 27) String.EmptyString.

(** [d.get(key, default)] on a dictionary given by its items. *)
Fixpoint dict_get (d : list (string * string)) (key default : string)
  : string :=
  match d with
  | [] => default
  | (k, v) :: d' => if String.eqb k key then v else dict_get d' key default
  end.

Definition colors : list (string * string) :=
  [("r", String.append esc "[31m");
   ("g", String.append esc "[32m");
   ("y", String.append esc "[33m");
   (String.EmptyString, String.EmptyString)]%string.

(** The text [printc(msg, color)] prints. *)
Definition printc (msg color : string) : string :=
  let end_ := String.append esc "[0m"%string in
  String.append (dict_get colors color String.EmptyString)
                (String.append msg end_).

Definition pkgs : list (string * string) :=
  [("torch", "torch");
   ("torchvision", "torchvision");
   ("matplotlib", "matplotlib");
   ("numpy", "numpy")]%string.

(** [l.remove(x)] on a list that contains [x]: the first occurrence goes. *)
Fixpoint list_remove (x : string) (l : list string) : list string :=
  match l with
  | [] => []
  | y :: l' => if String.eqb y x then l' else y :: list_remove x l'
  end.

Inductive event : Type :=
| Print (text : string)
| Run (argv : list string).

Inductive exit_status : Type :=
| Returned
| SystemExit (code : Z).

(** The command lines a trace runs, in order. *)
Fixpoint runs (out : list event) : list (list string) :=
  match out with
  | [] => []
  | Print _ :: out' => runs out'
  | Run argv :: out' => argv :: runs out'
  end.

Section InstallPrereqs.

(** The state of the environment: installed packages, the path. *)
Variable World : Type.

(** [importlib.import_module(name)]: [None] when the import succeeds,
    the text of the [ImportError] when it does not.  Importing is taken
    not to change the environment. *)
Variable import_module : World -> string -> option string.

(** [shutil.which(name) is not None] *)
Variable which : World -> string -> bool.

(** Running a command: the environment afterwards and the return code. *)
Variable run : World -> list string -> World * Z.

(** [sys.executable] *)
Variable executable : string.

(** [str(e)] of the [CalledProcessError] of a command and return code. *)
Variable str_CalledProcessError : list string -> Z -> string.

(** Every package of the list imports. *)
Definition all_import (w : World) : Prop :=
  forall m, In m (map fst pkgs) -> import_module w m = None.

Definition import_fails (w : World) (mod_name : string) : bool :=
  match import_module w mod_name with
  | None => false
  | Some _ => true
  end.

(** The loop collecting the pip names of the modules that do not
    import. *)
Definition find_missing (w : World) : list string :=
  map snd (filter (fun p => import_fails w (fst p)) pkgs).

Definition conda_argv : list string :=
  ["conda"; "install"; "-y"; "numpy"]%string.

Definition pip_argv (missing : list string) : list string :=
  ([executable; "-m"; "pip"; "install"] ++ missing)%string%list.

(** The special handling of numpy: the environment and the list
    [missing] afterwards, and what was printed and run. *)
Definition conda_step (w : World) (missing : list string)
  : World * list string * list event :=
  if existsb (String.eqb "numpy") missing then
    let warn :=
      Print (printc
               "'numpy' not found. Attempting to install with conda..."
               "y") in
    if which w "conda"%string then
      let '(w', returncode) := run w conda_argv in
      if (returncode =? 0)%Z then
        (w', list_remove "numpy" missing,
         [warn; Run conda_argv;
          Print (printc
                   "'numpy' installed with conda. You may now run your main script."
                   "g")])
      else
        (w', missing,
         [warn; Run conda_argv;
          Print (printc
                   "Conda install failed or numpy not found in environment. Trying pip..."
                   "r")])
    else
      (w, missing,
       [warn;
        Print (printc "'conda' is not available. Will try pip for 'numpy'."
                      "y")])
  else (w, missing, []).

(** The first [ImportError] of the final loop over the packages. *)
Fixpoint first_import_error (w : World) (mods : list string)
  : option string :=
  match mods with
  | [] => None
  | m :: mods' =>
      match import_module w m with
      | Some e => Some e
      | None => first_import_error w mods'
      end
  end.

Definition final_check (w : World) : list event * exit_status :=
  match first_import_error w (map fst pkgs) with
  | None => ([], Returned)
  | Some e =>
      ([Print (printc
                 "ERROR: Some dependencies could not be loaded after install. Try closing the terminal and starting a new one, or check your environment."
                 "r");
        Print (String.append "Details: " e)],
       SystemExit 1)
  end.

Definition _ensure_packages (w : World)
  : World * list event * exit_status :=
  let missing := find_missing w in
  let '(w1, _, out1) := conda_step w missing in
  let missing := find_missing w1 in
  match missing with
  | _ :: _ =>
      let argv := pip_argv missing in
      let out2 :=
        out1
        ++ [Print (printc (String.append "Missing: "
                                         (String.concat ", " missing))
                          "r");
            Print
              "Attempting to install missing dependencies with pip...";
            Run argv] in
      let '(w2, returncode) := run w1 argv in
      if (returncode =? 0)%Z then
        let '(out3, status) := final_check w2 in
        (w2,
         out2
         ++ [Print (printc
                      "Install succeeded! You may now run your main script."
                      "g")]
         ++ out3,
         status)
      else
        (w2,
         out2
         ++ [Print (printc "ERROR: Automatic pip install failed." "r");
             Print "You may need to install the following manually:";
             Print (printc (String.append "    pip install "
                                          (String.concat " " missing))
                           "r");
             Print (String.append "Details: "
                                  (str_CalledProcessError argv returncode))],
         SystemExit 1)
  | [] =>
      let '(out3, status) := final_check w1 in
      (w1,
       out1
       ++ [Print (printc
                    "All dependencies already satisfied. You are set!"
                    "g")]
       ++ out3,
       status)
  end.

End InstallPrereqs.

Arguments all_import {World} import_module w.
Arguments import_fails {World} import_module w mod_name.
Arguments find_missing {World} import_module w.
Arguments conda_step {World} which run w missing.
Arguments first_import_error {World} import_module w mods.
Arguments final_check {World} import_module w.
Arguments _ensure_packages {World} import_module which run executable
  str_CalledProcessError w.

(** An environment to run the script in: the world is the list of the
    installed packages, nothing is on the path, and a command installs the
    packages named after its first four words. *)
Definition toy_import (w : list string) (name : string) : option string :=
  if existsb (String.eqb name) w then None
  else Some (String.append "No module named " name).

Definition toy_run (w : list string) (argv : list string)
  : list string * Z :=
  (w ++ skipn 4 argv, 0%Z).

(** ** Complex arithmetic *)

Lemma C_eq (x y : C) : fst x = fst y -> snd x = snd y -> x = y.
Proof. destruct x, y; simpl; congruence. Qed.

Ltac csolve :=
  intros; apply C_eq; unfold Cplus, Cmult, Copp, Cminus, Cconj, C0, C1, Ci,
    Cscal, Cdivr; simpl; try ring; try lra.

Lemma Cplus_comm x y : Cplus x y = Cplus y x.
Proof. csolve. Qed.

Lemma Cplus_assoc x y z : Cplus x (Cplus y z) = Cplus (Cplus x y) z.
Proof. csolve. Qed.

Lemma Cplus_0_l x : Cplus C0 x = x.
Proof. csolve. Qed.

Lemma Cplus_0_r x : Cplus x C0 = x.
Proof. csolve. Qed.

Lemma Cmult_comm x y : Cmult x y = Cmult y x.
Proof. csolve. Qed.

Lemma Cmult_assoc x y z : Cmult x (Cmult y z) = Cmult (Cmult x y) z.
Proof. csolve. Qed.

Lemma Cmult_0_l x : Cmult C0 x = C0.
Proof. csolve. Qed.

Lemma Cmult_0_r x : Cmult x C0 = C0.
Proof. csolve. Qed.

Lemma Cmult_1_l x : Cmult C1 x = x.
Proof. csolve. Qed.

Lemma Cmult_1_r x : Cmult x C1 = x.
Proof. csolve. Qed.

Lemma Cmult_plus_distr_l x y z :
  Cmult x (Cplus y z) = Cplus (Cmult x y) (Cmult x z).
Proof. csolve. Qed.

Lemma Cmult_plus_distr_r x y z :
  Cmult (Cplus x y) z = Cplus (Cmult x z) (Cmult y z).
Proof. csolve. Qed.

Lemma Cconj_mult x y : Cconj (Cmult x y) = Cmult (Cconj x) (Cconj y).
Proof. csolve. Qed.

Lemma Cconj_0 : Cconj C0 = C0.
Proof. csolve. Qed.

Lemma Cconj_1 : Cconj C1 = C1.
Proof. csolve. Qed.

Lemma Cminus_diag x : Cminus x x = C0.
Proof. csolve. Qed.

Lemma Cmod_0 : Cmod C0 = 0%R.
Proof.
  unfold Cmod, C0; simpl.
  replace (0 * 0 + 0 * 0)%R with 0%R by ring. apply sqrt_0.
Qed.

Lemma Cmod_1 : Cmod C1 = 1%R.
Proof.
  unfold Cmod, C1; simpl.
  replace (1 * 1 + 0 * 0)%R with 1%R by ring. apply sqrt_1.
Qed.

Lemma Cmod_nonneg z : (0 <= Cmod z)%R.
Proof. apply sqrt_pos. Qed.

Lemma Cmod_eq_0 z : Cmod z = 0%R -> z = C0.
Proof.
  unfold Cmod. intros H. apply sqrt_eq_0 in H; [|nra].
  apply C_eq; simpl; nra.
Qed.

(** Units and zeros are simplified by [autorewrite with cplx]. *)
Create Rewrite HintDb cplx.
#[local] Hint Rewrite Cmult_0_l Cmult_0_r Cmult_1_l Cmult_1_r
  Cplus_0_l Cplus_0_r Cconj_0 Cconj_1 : cplx.

Lemma Cexp_i_0 : Cexp_i 0 = C1.
Proof. unfold Cexp_i, C1. now rewrite cos_0, sin_0. Qed.

Lemma Cexp_i_plus a b : Cexp_i (a + b) = Cmult (Cexp_i a) (Cexp_i b).
Proof.
  unfold Cexp_i, Cmult; simpl. rewrite cos_plus, sin_plus. f_equal; ring.
Qed.

Lemma Cexp_i_conj a : Cconj (Cexp_i a) = Cexp_i (- a).
Proof. unfold Cexp_i, Cconj; simpl. now rewrite cos_neg, sin_neg. Qed.

Lemma Cexp_i_unit a : Cmult (Cexp_i a) (Cconj (Cexp_i a)) = C1.
Proof.
  rewrite Cexp_i_conj, <- Cexp_i_plus.
  replace (a + - a)%R with 0%R by ring. apply Cexp_i_0.
Qed.

Lemma Cexp_i_mod a : Cmod (Cexp_i a) = 1%R.
Proof.
  unfold Cmod, Cexp_i; simpl.
  replace (cos a * cos a + sin a * sin a)%R with 1%R.
  - apply sqrt_1.
  - generalize (sin2_cos2 a). unfold Rsqr. lra.
Qed.

(** The two entries the RZ loop writes are [e^{-iθ/2}] and [e^{+iθ/2}]. *)
Lemma Cexp_minus_half angle :
  Cexp (Cdivr (Cscal (Copp Ci) angle) 2) = Cexp_i (- (angle / 2)).
Proof.
  unfold Cexp, Cdivr, Cscal, Copp, Ci, Cexp_i; simpl.
  replace (- 0 * angle / 2)%R with 0%R by lra.
  replace (- (1) * angle / 2)%R with (- (angle / 2))%R by lra.
  rewrite exp_0. f_equal; ring.
Qed.

Lemma Cexp_plus_half angle :
  Cexp (Cdivr (Cscal Ci angle) 2) = Cexp_i (angle / 2).
Proof.
  unfold Cexp, Cdivr, Cscal, Ci, Cexp_i; simpl.
  replace (0 * angle / 2)%R with 0%R by lra.
  replace (1 * angle / 2)%R with (angle / 2)%R by lra.
  rewrite exp_0. f_equal; ring.
Qed.

(** [cmp] settles the boolean comparisons of the goal that linear
    arithmetic decides. *)
Ltac cmp_with b lemma_true lemma_false :=
  first [ replace b with true by (symmetry; apply lemma_true; lia)
        | replace b with false by (symmetry; apply lemma_false; lia) ].

Ltac cmp :=
  repeat match goal with
  | |- context [Nat.ltb ?a ?b] => cmp_with (Nat.ltb a b) Nat.ltb_lt Nat.ltb_ge
  | |- context [Nat.leb ?a ?b] => cmp_with (Nat.leb a b) Nat.leb_le Nat.leb_gt
  | |- context [Nat.eqb ?a ?b] => cmp_with (Nat.eqb a b) Nat.eqb_eq Nat.eqb_neq
  | |- context [Z.ltb ?a ?b] => cmp_with (Z.ltb a b) Z.ltb_lt Z.ltb_ge
  | |- context [Z.leb ?a ?b] => cmp_with (Z.leb a b) Z.leb_le Z.leb_gt
  | |- context [Z.eqb ?a ?b] => cmp_with (Z.eqb a b) Z.eqb_eq Z.eqb_neq
  end.

(** ** Finite sums *)

Lemma Csum_ext (F G : nat -> C) l :
  (forall k, In k l -> F k = G k) -> Csum (map F l) = Csum (map G l).
Proof.
  intros H. f_equal. apply map_ext_in. exact H.
Qed.

Lemma Csum_zero (F : nat -> C) l :
  (forall k, In k l -> F k = C0) -> Csum (map F l) = C0.
Proof.
  induction l as [|a l IH]; simpl; intros H; [reflexivity|].
  rewrite H by now left. rewrite IH by (intros; apply H; now right).
  apply Cplus_0_l.
Qed.

Lemma Csum_plus (F G : nat -> C) l :
  Csum (map (fun k => Cplus (F k) (G k)) l)
  = Cplus (Csum (map F l)) (Csum (map G l)).
Proof.
  induction l as [|a l IH]; simpl.
  - now rewrite Cplus_0_l.
  - rewrite IH. csolve.
Qed.

Lemma Csum_mult_l a (F : nat -> C) l :
  Cmult a (Csum (map F l)) = Csum (map (fun k => Cmult a (F k)) l).
Proof.
  induction l as [|x l IH]; simpl.
  - apply Cmult_0_r.
  - now rewrite Cmult_plus_distr_l, IH.
Qed.

Lemma Csum_mult_r a (F : nat -> C) l :
  Cmult (Csum (map F l)) a = Csum (map (fun k => Cmult (F k) a) l).
Proof.
  induction l as [|x l IH]; simpl.
  - apply Cmult_0_l.
  - now rewrite Cmult_plus_distr_r, IH.
Qed.

Lemma Csum_exchange (F : nat -> nat -> C) l1 l2 :
  Csum (map (fun i => Csum (map (fun j => F i j) l2)) l1)
  = Csum (map (fun j => Csum (map (fun i => F i j) l1)) l2).
Proof.
  induction l1 as [|a l1 IH]; simpl.
  - symmetry. now apply Csum_zero.
  - rewrite IH. symmetry. apply (Csum_plus (fun j => F a j)).
Qed.

(** A sum with at most one non-zero term. *)
Lemma Csum_single (F : nat -> C) a s n :
  Csum (map (fun k => if k =? a then F k else C0) (seq s n))
  = if (s <=? a) && (a <? s + n) then F a else C0.
Proof.
  revert s. induction n as [|n IH]; intros s; simpl.
  - destruct (s <=? a) eqn:E1, (a <? s + 0) eqn:E2; simpl; try reflexivity.
    apply Nat.leb_le in E1. apply Nat.ltb_lt in E2. lia.
  - rewrite IH. destruct (s =? a) eqn:E.
    + apply Nat.eqb_eq in E. subst s.
      replace (S a <=? a) with false by (symmetry; apply Nat.leb_gt; lia).
      simpl. rewrite Nat.leb_refl.
      replace (a <? a + S n) with true by (symmetry; apply Nat.ltb_lt; lia).
      simpl. apply Cplus_0_r.
    + apply Nat.eqb_neq in E. rewrite Cplus_0_l.
      replace (a <? S s + n) with (a <? s + S n) by (f_equal; lia).
      destruct (a <? s + S n); rewrite ?andb_true_r, ?andb_false_r; auto.
      destruct (S s <=? a) eqn:E1, (s <=? a) eqn:E2; auto.
      * apply Nat.leb_le in E1. apply Nat.leb_gt in E2. lia.
      * apply Nat.leb_gt in E1. apply Nat.leb_le in E2. lia.
Qed.

Lemma Csum_single_lt (F : nat -> C) a n :
  a < n -> Csum (map (fun k => if k =? a then F k else C0) (seq 0 n)) = F a.
Proof.
  intros H. rewrite Csum_single. simpl. now cmp.
Qed.

(** ** Arrays *)

Lemma length_tabulate rows cols F : length (tabulate rows cols F) = rows.
Proof. unfold tabulate. now rewrite length_map, length_seq. Qed.

Lemma nth_map_seq (A : Type) (f : nat -> A) (d : A) n k :
  k < n -> nth k (map f (seq 0 n)) d = f k.
Proof.
  intros H. rewrite nth_indep with (d' := f 0) by now rewrite length_map, length_seq.
  rewrite map_nth. now rewrite seq_nth.
Qed.

Lemma nth_tabulate rows cols F i :
  i < rows -> nth i (tabulate rows cols F) [] = map (F i) (seq 0 cols).
Proof. intros H. unfold tabulate. now rewrite nth_map_seq. Qed.

Lemma mget_tabulate rows cols F i j :
  i < rows -> j < cols -> mget (tabulate rows cols F) i j = F i j.
Proof.
  intros Hi Hj. unfold mget. rewrite nth_tabulate by assumption.
  now apply nth_map_seq.
Qed.

Lemma ncols_tabulate rows cols F :
  0 < rows -> ncols (tabulate rows cols F) = cols.
Proof.
  intros H. unfold ncols. rewrite nth_tabulate by assumption.
  now rewrite length_map, length_seq.
Qed.

Lemma tabulate_ext rows cols F G :
  (forall i j, i < rows -> j < cols -> F i j = G i j) ->
  tabulate rows cols F = tabulate rows cols G.
Proof.
  intros H. unfold tabulate. apply map_ext_in. intros i Hi.
  apply map_ext_in. intros j Hj. apply in_seq in Hi, Hj. apply H; lia.
Qed.

Lemma upd_map_seq (A : Type) (f : nat -> A) s n i v :
  upd (map f (seq s n)) i v
  = map (fun k => if k =? s + i then v else f k) (seq s n).
Proof.
  revert s i. induction n as [|n IH]; intros s i; simpl.
  - now destruct i.
  - destruct i as [|i]; simpl.
    + rewrite Nat.add_0_r, Nat.eqb_refl. f_equal.
      apply map_ext_in. intros k Hk. apply in_seq in Hk.
      now replace (k =? s) with false by (symmetry; apply Nat.eqb_neq; lia).
    + replace (s =? s + S i) with false by (symmetry; apply Nat.eqb_neq; lia).
      f_equal. rewrite IH. apply map_ext. intros k.
      now replace (S s + i) with (s + S i) by lia.
Qed.

Lemma set_item_tabulate rows cols F i j v :
  i < rows -> j < cols ->
  set_item (tabulate rows cols F) i j v
  = Ok (tabulate rows cols
          (fun r c => if (r =? i) && (c =? j) then v else F r c)).
Proof.
  intros Hi Hj. unfold set_item.
  rewrite length_tabulate, nth_tabulate by assumption.
  rewrite length_map, length_seq. cmp.
  simpl. f_equal. unfold tabulate at 1. rewrite upd_map_seq. simpl.
  unfold tabulate. apply map_ext. intros r.
  destruct (r =? i) eqn:E; simpl.
  - rewrite upd_map_seq. simpl. apply Nat.eqb_eq in E. now subst r.
  - reflexivity.
Qed.

Lemma set_item_tabulate_rows rows cols F i j v :
  rows <= i -> (Z.of_nat i < 2 ^ 63)%Z -> (Z.of_nat j < 2 ^ 63)%Z ->
  set_item (tabulate rows cols F) i j v = Raise IndexError.
Proof.
  intros Hi Hi' Hj. unfold set_item. rewrite length_tabulate.
  destruct (i <? rows) eqn:E; [apply Nat.ltb_lt in E; lia|].
  cbn [andb].
  destruct (2 ^ 63 <=? Z.of_nat i)%Z eqn:E1; [apply Z.leb_le in E1; lia|].
  destruct (2 ^ 63 <=? Z.of_nat j)%Z eqn:E2; [apply Z.leb_le in E2; lia|].
  reflexivity.
Qed.

Lemma set_item_tabulate_overflow rows cols F i j v :
  rows <= i -> (2 ^ 63 <= Z.of_nat i)%Z ->
  set_item (tabulate rows cols F) i j v = Raise OverflowError.
Proof.
  intros Hi Hi'. unfold set_item. rewrite length_tabulate.
  destruct (i <? rows) eqn:E; [apply Nat.ltb_lt in E; lia|].
  cbn [andb].
  destruct (2 ^ 63 <=? Z.of_nat i)%Z eqn:E1; [reflexivity|].
  apply Z.leb_gt in E1; lia.
Qed.

Lemma matmul_tabulate n m p F G :
  0 < m ->
  matmul (tabulate n m F) (tabulate m p G)
  = tabulate n p (fun i j => Csum (map (fun k => Cmult (F i k) (G k j)) (seq 0 m))).
Proof.
  intros Hm. unfold matmul. rewrite length_tabulate, ncols_tabulate by assumption.
  set (B := tabulate m p G). unfold tabulate. rewrite map_map.
  apply map_ext. intros i. apply map_ext_in. intros j Hj. apply in_seq in Hj.
  apply Csum_ext. intros k Hk. apply in_seq in Hk.
  rewrite nth_map_seq by lia. unfold B. now rewrite mget_tabulate by lia.
Qed.

Lemma matvec_tabulate n m F v :
  length v = m ->
  matvec (tabulate n m F) v
  = map (fun i => Csum (map (fun k => Cmult (F i k) (nth k v C0)) (seq 0 m)))
        (seq 0 n).
Proof.
  intros Hv. unfold matvec, tabulate. rewrite map_map. apply map_ext.
  intros i. rewrite Hv. apply Csum_ext. intros k Hk. apply in_seq in Hk.
  now rewrite nth_map_seq by lia.
Qed.

Lemma dagger_tabulate n m F :
  0 < n ->
  dagger (tabulate n m F) = tabulate m n (fun j i => Cconj (F i j)).
Proof.
  intros Hn. unfold dagger. rewrite length_tabulate, ncols_tabulate by assumption.
  apply tabulate_ext. intros j i Hj Hi. now rewrite mget_tabulate.
Qed.

(** ** Bits of basis indices *)

Lemma truthy_land_1 i s :
  truthy (Nat.land (Nat.shiftr i s) 1) = Nat.testbit i s.
Proof.
  unfold truthy.
  change 1 with (Nat.ones 1) at 1. rewrite Nat.land_ones.
  replace (Nat.testbit i s) with (Nat.testbit (Nat.shiftr i s) 0)
    by (rewrite Nat.shiftr_spec by lia; f_equal; lia).
  rewrite Nat.bit0_eqb. change (2 ^ 1) with 2.
  pose proof (Nat.mod_upper_bound (Nat.shiftr i s) 2 ltac:(lia)) as H.
  destruct (Nat.shiftr i s mod 2) as [|[|m]]; simpl; auto; lia.
Qed.

Lemma testbit_above i n k : i < 2 ^ n -> n <= k -> Nat.testbit i k = false.
Proof.
  intros Hi Hk. rewrite Nat.testbit_eqb.
  assert (H : 2 ^ n <= 2 ^ k) by (apply Nat.pow_le_mono_r; lia).
  rewrite Nat.div_small by lia. reflexivity.
Qed.

Lemma testbit_true_ge i k : Nat.testbit i k = true -> 2 ^ k <= i.
Proof.
  intros H. destruct (Nat.le_gt_cases (2 ^ k) i) as [|Hlt]; [assumption|].
  rewrite (testbit_above i k k) in H by lia. discriminate.
Qed.

Lemma lt_pow2_of_bits i n :
  (forall k, n <= k -> Nat.testbit i k = false) -> i < 2 ^ n.
Proof.
  intros H.
  assert (Hz : i / 2 ^ n = 0).
  { apply Nat.bits_inj_0. intros m. rewrite Nat.div_pow2_bits. apply H. lia. }
  assert (Hp : 2 ^ n <> 0) by (apply Nat.pow_nonzero; lia).
  pose proof (Nat.div_mod i (2 ^ n) Hp) as E.
  pose proof (Nat.mod_upper_bound i (2 ^ n) Hp).
  rewrite Hz in E. lia.
Qed.

Lemma lxor_pow2_lt i n t : i < 2 ^ n -> t < n -> Nat.lxor i (2 ^ t) < 2 ^ n.
Proof.
  intros Hi Ht. apply lt_pow2_of_bits. intros k Hk.
  rewrite Nat.lxor_spec, (testbit_above i n) by assumption.
  rewrite Nat.pow2_bits_false by lia. reflexivity.
Qed.

Lemma lxor_pow2_ge i n t : i < 2 ^ n -> n <= t -> 2 ^ n <= Nat.lxor i (2 ^ t).
Proof.
  intros Hi Ht.
  assert (H : Nat.testbit (Nat.lxor i (2 ^ t)) t = true).
  { rewrite Nat.lxor_spec, (testbit_above i n) by assumption.
    now rewrite Nat.pow2_bits_true. }
  apply testbit_true_ge in H.
  assert (2 ^ n <= 2 ^ t) by (apply Nat.pow_le_mono_r; lia). lia.
Qed.

Lemma lxor_pow2_neq i t : Nat.lxor i (2 ^ t) <> i.
Proof.
  intros H. apply (f_equal (fun x => Nat.testbit x t)) in H.
  rewrite Nat.lxor_spec, Nat.pow2_bits_true in H.
  destruct (Nat.testbit i t); discriminate.
Qed.

Lemma lxor_pow2_twice i t : Nat.lxor (Nat.lxor i (2 ^ t)) (2 ^ t) = i.
Proof.
  now rewrite Nat.lxor_assoc, Nat.lxor_nilpotent, Nat.lxor_0_r.
Qed.

Lemma testbit_lxor_pow2 i t k :
  Nat.testbit (Nat.lxor i (2 ^ t)) k = xorb (Nat.testbit i k) (t =? k).
Proof. now rewrite Nat.lxor_spec, Nat.pow2_bits_eqb. Qed.

Lemma py_rshift_ok i s :
  (0 <= s)%Z -> py_rshift i s = Ok (Nat.shiftr i (Z.to_nat s)).
Proof.
  intros H. unfold py_rshift. now cmp.
Qed.

Lemma py_rshift_neg i s : (s < 0)%Z -> py_rshift i s = Raise ValueError.
Proof.
  intros H. unfold py_rshift. now cmp.
Qed.

Lemma py_lshift_1_ok s : (0 <= s)%Z -> py_lshift 1 s = Ok (2 ^ Z.to_nat s).
Proof.
  intros H. unfold py_lshift. cmp. now rewrite Nat.shiftl_1_l.
Qed.

Lemma py_lshift_neg i s : (s < 0)%Z -> py_lshift i s = Raise ValueError.
Proof.
  intros H. unfold py_lshift. now cmp.
Qed.

(** ** Basis action of CNOT *)

Lemma cnot_act_lt control target n i :
  target < n -> i < 2 ^ n -> cnot_act control target i < 2 ^ n.
Proof.
  intros Ht Hi. unfold cnot_act.
  destruct (Nat.testbit i control); [now apply lxor_pow2_lt | assumption].
Qed.

Lemma cnot_act_control_above control target n i :
  n <= control -> i < 2 ^ n -> cnot_act control target i = i.
Proof.
  intros Hc Hi. unfold cnot_act.
  now rewrite (testbit_above i n) by assumption.
Qed.

Lemma cnot_act_involutive control target i :
  control <> target ->
  cnot_act control target (cnot_act control target i) = i.
Proof.
  intros Hne. unfold cnot_act at 2.
  destruct (Nat.testbit i control) eqn:E; unfold cnot_act.
  - rewrite testbit_lxor_pow2, E.
    replace (target =? control) with false
      by (symmetry; apply Nat.eqb_neq; lia).
    simpl. apply lxor_pow2_twice.
  - now rewrite E.
Qed.

(** ** The loops that build the gate matrices *)

Lemma fold_cnot_Raise control target l e :
  fold_left (cnot_step control target) l (Raise e) = Raise e.
Proof. induction l; simpl; auto. Qed.

Lemma fold_rz_Raise angle qubit l e :
  fold_left (rz_step angle qubit) l (Raise e) = Raise e.
Proof. induction l; simpl; auto. Qed.

Lemma fold_gate_Raise dim l e : fold_left (gate_step dim) l (Raise e) = Raise e.
Proof. induction l; simpl; auto. Qed.

Lemma pow2_pos n : 0 < 2 ^ n.
Proof. pose proof (Nat.pow_nonzero 2 n). lia. Qed.

Lemma seq_pow2_head n : seq 0 (2 ^ n) = 0 :: seq 1 (2 ^ n - 1).
Proof.
  pose proof (pow2_pos n). destruct (2 ^ n) eqn:E; [lia|].
  simpl. now rewrite Nat.sub_0_r.
Qed.

Lemma seq_split_at k n :
  k < n -> seq 0 n = seq 0 k ++ k :: seq (S k) (n - S k).
Proof.
  intros H. replace n with (k + S (n - S k)) at 1 by lia.
  now rewrite seq_app.
Qed.

Lemma cnot_step_tabulate dim control target F i :
  (0 <= control)%Z -> i < dim ->
  cnot_step control target (Ok (tabulate dim dim F)) i
  = if Nat.testbit i (Z.to_nat control) then
      s <- py_lshift 1 target ;;
      set_item (tabulate dim dim
                  (fun r c => if (r =? i) && (c =? i) then C0 else F r c))
               (Nat.lxor i s) i C1
    else Ok (tabulate dim dim F).
Proof.
  intros Hc Hi. unfold cnot_step. simpl.
  rewrite py_rshift_ok by assumption. simpl. rewrite truthy_land_1.
  destruct (Nat.testbit i (Z.to_nat control)); [|reflexivity].
  destruct (py_lshift 1 target); simpl; [|reflexivity].
  now rewrite set_item_tabulate by assumption.
Qed.

Lemma cnot_prefix n control target k :
  (0 <= control)%Z -> k <= 2 ^ n ->
  (forall i, i < k -> Nat.testbit i (Z.to_nat control) = true ->
             (0 <= target < Z.of_nat n)%Z) ->
  fold_left (cnot_step control target) (seq 0 k) (Ok (np_eye (2 ^ n)))
  = Ok (tabulate (2 ^ n) (2 ^ n)
          (fun r c =>
             if r =? (if c <? k
                      then cnot_act (Z.to_nat control) (Z.to_nat target) c
                      else c)
             then C1 else C0)).
Proof.
  intros Hc. induction k as [|k IH]; intros Hk Ht.
  - reflexivity.
  - rewrite seq_S, Nat.add_0_l, fold_left_app.
    rewrite IH; [| lia | intros i Hi E; apply (Ht i); [lia | exact E]].
    cbn [fold_left]. rewrite cnot_step_tabulate by (try assumption; lia).
    destruct (Nat.testbit k (Z.to_nat control)) eqn:E.
    + specialize (Ht k ltac:(lia) E).
      rewrite py_lshift_1_ok by lia. simpl.
      assert (Hj : Nat.lxor k (2 ^ Z.to_nat target) < 2 ^ n)
        by (apply lxor_pow2_lt; lia).
      rewrite set_item_tabulate by lia. f_equal.
      apply tabulate_ext. intros r c Hr Hcc.
      destruct (c =? k) eqn:Eck.
      * apply Nat.eqb_eq in Eck. subst c.
        replace (k <? S k) with true by (symmetry; apply Nat.ltb_lt; lia).
        unfold cnot_act. rewrite E, Nat.ltb_irrefl.
        rewrite !andb_true_r.
        destruct (r =? Nat.lxor k (2 ^ Z.to_nat target)) eqn:Er; [reflexivity|].
        destruct (r =? k) eqn:Erk; reflexivity.
      * rewrite !andb_false_r. apply Nat.eqb_neq in Eck.
        destruct (c <? k) eqn:E1.
        -- apply Nat.ltb_lt in E1.
           now replace (c <? S k) with true by (symmetry; apply Nat.ltb_lt; lia).
        -- apply Nat.ltb_ge in E1.
           now replace (c <? S k) with false by (symmetry; apply Nat.ltb_ge; lia).
    + f_equal. apply tabulate_ext. intros r c Hr Hcc.
      destruct (c =? k) eqn:Eck.
      * apply Nat.eqb_eq in Eck. subst c.
        replace (k <? S k) with true by (symmetry; apply Nat.ltb_lt; lia).
        unfold cnot_act. now rewrite E, Nat.ltb_irrefl.
      * apply Nat.eqb_neq in Eck.
        destruct (c <? k) eqn:E1.
        -- apply Nat.ltb_lt in E1.
           now replace (c <? S k) with true by (symmetry; apply Nat.ltb_lt; lia).
        -- apply Nat.ltb_ge in E1.
           now replace (c <? S k) with false by (symmetry; apply Nat.ltb_ge; lia).
Qed.

Lemma cnot_matrix_ok n control target :
  (0 <= control)%Z ->
  ((control < Z.of_nat n)%Z -> (0 <= target < Z.of_nat n)%Z) ->
  cnot_matrix (2 ^ n) control target
  = Ok (mono (2 ^ n) (cnot_act (Z.to_nat control) (Z.to_nat target))
             (fun _ => C1)).
Proof.
  intros Hc Ht. unfold cnot_matrix. rewrite cnot_prefix; try lia.
  - f_equal. apply tabulate_ext. intros r c Hr Hcc. now cmp.
  - intros i Hi E. apply Ht.
    destruct (Z.lt_ge_cases control (Z.of_nat n)) as [|Hge]; [assumption|].
    rewrite (testbit_above i n) in E by lia. discriminate.
Qed.

Lemma cnot_matrix_neg_control n control target :
  (control < 0)%Z -> cnot_matrix (2 ^ n) control target = Raise ValueError.
Proof.
  intros Hc. unfold cnot_matrix. rewrite seq_pow2_head. cbn [fold_left].
  unfold cnot_step at 2. cbn [bind]. rewrite py_rshift_neg by assumption.
  apply fold_cnot_Raise.
Qed.

Lemma cnot_matrix_at_control n control target :
  (0 <= control < Z.of_nat n)%Z ->
  cnot_matrix (2 ^ n) control target
  = fold_left (cnot_step control target)
      (seq (S (2 ^ Z.to_nat control)) (2 ^ n - S (2 ^ Z.to_nat control)))
      (s <- py_lshift 1 target ;;
       set_item (tabulate (2 ^ n) (2 ^ n)
                   (fun r c => if (r =? 2 ^ Z.to_nat control)
                                  && (c =? 2 ^ Z.to_nat control)
                               then C0 else if r =? c then C1 else C0))
                (Nat.lxor (2 ^ Z.to_nat control) s) (2 ^ Z.to_nat control) C1).
Proof.
  intros Hc. unfold cnot_matrix.
  assert (Hlt : 2 ^ Z.to_nat control < 2 ^ n)
    by (apply Nat.pow_lt_mono_r; lia).
  rewrite (seq_split_at (2 ^ Z.to_nat control) (2 ^ n)) by assumption.
  rewrite fold_left_app. rewrite (cnot_prefix n); try lia.
  - cbn [fold_left]. rewrite cnot_step_tabulate by (try assumption; lia).
    rewrite Nat.pow2_bits_true. f_equal.
    destruct (py_lshift 1 target); simpl; [|reflexivity].
    f_equal. apply tabulate_ext. intros r c Hr Hcc.
    destruct ((r =? 2 ^ Z.to_nat control) && (c =? 2 ^ Z.to_nat control));
      [reflexivity|].
    unfold cnot_act.
    destruct (c <? 2 ^ Z.to_nat control) eqn:E; [|reflexivity].
    apply Nat.ltb_lt in E.
    now rewrite (testbit_above c (Z.to_nat control)) by lia.
  - intros i Hi E.
    rewrite (testbit_above i (Z.to_nat control)) in E by lia. discriminate.
Qed.

Lemma cnot_matrix_neg_target n control target :
  (0 <= control < Z.of_nat n)%Z -> (target < 0)%Z ->
  cnot_matrix (2 ^ n) control target = Raise ValueError.
Proof.
  intros Hc Ht. rewrite cnot_matrix_at_control by assumption.
  rewrite py_lshift_neg by assumption. simpl. apply fold_cnot_Raise.
Qed.

Lemma pow2_nat_Z k : Z.of_nat (2 ^ k) = (2 ^ Z.of_nat k)%Z.
Proof. now rewrite Nat2Z.inj_pow. Qed.

Lemma lt_pow2_63_Z i : i < 2 ^ 63 -> (Z.of_nat i < 2 ^ 63)%Z.
Proof.
  intros H. apply Nat2Z.inj_lt in H. rewrite (pow2_nat_Z 63) in H. exact H.
Qed.

Lemma le_pow2_63_Z i : 2 ^ 63 <= i -> (2 ^ 63 <= Z.of_nat i)%Z.
Proof.
  intros H. apply Nat2Z.inj_le in H. rewrite (pow2_nat_Z 63) in H. exact H.
Qed.

Lemma cnot_matrix_big_target n control target :
  (0 <= control < Z.of_nat n)%Z -> (Z.of_nat n <= target < 63)%Z ->
  cnot_matrix (2 ^ n) control target = Raise IndexError.
Proof.
  intros Hc Ht. rewrite cnot_matrix_at_control by assumption.
  rewrite py_lshift_1_ok by lia. cbn [bind].
  assert (Hc63 : 2 ^ Z.to_nat control < 2 ^ 63)
    by (apply Nat.pow_lt_mono_r; lia).
  rewrite set_item_tabulate_rows; [apply fold_cnot_Raise| | |].
  - apply lxor_pow2_ge; [apply Nat.pow_lt_mono_r|]; lia.
  - apply lt_pow2_63_Z, lxor_pow2_lt; [assumption|].
    clear Hc63. lia.
  - apply lt_pow2_63_Z. exact Hc63.
Qed.

Lemma cnot_matrix_huge_target n control target :
  (0 <= control < Z.of_nat n)%Z -> (Z.of_nat n <= target)%Z ->
  (63 <= target)%Z ->
  cnot_matrix (2 ^ n) control target = Raise OverflowError.
Proof.
  intros Hc Ht Ht63. rewrite cnot_matrix_at_control by assumption.
  rewrite py_lshift_1_ok by lia. cbn [bind].
  assert (Hcn : 2 ^ Z.to_nat control < 2 ^ n)
    by (apply Nat.pow_lt_mono_r; lia).
  rewrite set_item_tabulate_overflow; [apply fold_cnot_Raise| |].
  - apply lxor_pow2_ge; [assumption | lia].
  - assert (H : 2 ^ 63 <= Nat.lxor (2 ^ Z.to_nat control)
                            (2 ^ Z.to_nat target)).
    { assert (H : Nat.testbit (Nat.lxor (2 ^ Z.to_nat control)
                                 (2 ^ Z.to_nat target)) (Z.to_nat target)
                  = true).
      { rewrite Nat.lxor_spec, (testbit_above _ n) by (assumption || lia).
        now rewrite Nat.pow2_bits_true. }
      apply testbit_true_ge in H.
      assert (2 ^ 63 <= 2 ^ Z.to_nat target)
        by (apply Nat.pow_le_mono_r; lia).
      eapply Nat.le_trans; eassumption. }
    apply le_pow2_63_Z. exact H.
Qed.

Lemma rz_step_tabulate dim angle qubit F i :
  (0 <= qubit)%Z -> i < dim ->
  rz_step angle qubit (Ok (tabulate dim dim F)) i
  = Ok (tabulate dim dim
          (fun r c => if (r =? i) && (c =? i)
                      then rz_phase angle (Z.to_nat qubit) i else F r c)).
Proof.
  intros Hq Hi. unfold rz_step. cbn [bind].
  rewrite py_rshift_ok by assumption. cbn [bind]. rewrite truthy_land_1.
  unfold rz_phase. rewrite Cexp_minus_half, Cexp_plus_half.
  destruct (Nat.testbit i (Z.to_nat qubit));
    now rewrite set_item_tabulate by assumption.
Qed.

Lemma rz_prefix dim angle qubit k :
  (0 <= qubit)%Z -> k <= dim ->
  fold_left (rz_step angle qubit) (seq 0 k) (Ok (np_eye dim))
  = Ok (tabulate dim dim
          (fun r c =>
             if r =? c
             then (if c <? k then rz_phase angle (Z.to_nat qubit) c else C1)
             else C0)).
Proof.
  intros Hq. induction k as [|k IH]; intros Hk.
  - reflexivity.
  - rewrite seq_S, Nat.add_0_l, fold_left_app, IH by lia.
    cbn [fold_left]. rewrite rz_step_tabulate by (try assumption; lia).
    f_equal. apply tabulate_ext. intros r c Hr Hc.
    destruct (r =? c) eqn:Erc.
    + apply Nat.eqb_eq in Erc. subst r. rewrite andb_diag.
      destruct (c =? k) eqn:Eck.
      * apply Nat.eqb_eq in Eck. subst c.
        now replace (k <? S k) with true by (symmetry; apply Nat.ltb_lt; lia).
      * apply Nat.eqb_neq in Eck. destruct (c <? k) eqn:E1.
        -- apply Nat.ltb_lt in E1.
           now replace (c <? S k) with true by (symmetry; apply Nat.ltb_lt; lia).
        -- apply Nat.ltb_ge in E1.
           now replace (c <? S k) with false by (symmetry; apply Nat.ltb_ge; lia).
    + destruct ((r =? k) && (c =? k)) eqn:E; [|reflexivity].
      apply andb_true_iff in E. destruct E as [E1 E2].
      apply Nat.eqb_eq in E1, E2. apply Nat.eqb_neq in Erc. lia.
Qed.

Lemma rz_matrix_ok dim angle qubit :
  (0 <= qubit)%Z ->
  rz_matrix dim angle qubit
  = Ok (mono dim (fun c => c) (rz_phase angle (Z.to_nat qubit))).
Proof.
  intros Hq. unfold rz_matrix. rewrite rz_prefix by lia.
  f_equal. apply tabulate_ext. intros r c Hr Hc. now cmp.
Qed.

Lemma rz_matrix_neg n angle qubit :
  (qubit < 0)%Z -> rz_matrix (2 ^ n) angle qubit = Raise ValueError.
Proof.
  intros Hq. unfold rz_matrix. rewrite seq_pow2_head. cbn [fold_left].
  unfold rz_step at 2. cbn [bind]. rewrite py_rshift_neg by assumption.
  apply fold_rz_Raise.
Qed.

(** ** What the evaluator computes, gate by gate and on a whole circuit *)

Lemma gate_matrix_spec n g :
  gate_matrix (2 ^ n) g
  = match gate_error n g with
    | Some e => Raise e
    | None => Ok (mono (2 ^ n) (gate_act g) (gate_phase g))
    end.
Proof.
  destruct g as [control target | angle qubit]; simpl.
  - destruct (control <? 0)%Z eqn:E1.
    { apply Z.ltb_lt in E1. now apply cnot_matrix_neg_control. }
    apply Z.ltb_ge in E1.
    destruct (Z.of_nat n <=? control)%Z eqn:E2.
    { apply Z.leb_le in E2. apply cnot_matrix_ok; lia. }
    apply Z.leb_gt in E2.
    destruct (target <? 0)%Z eqn:E3.
    { apply Z.ltb_lt in E3. apply cnot_matrix_neg_target; lia. }
    apply Z.ltb_ge in E3.
    destruct (Z.of_nat n <=? target)%Z eqn:E4.
    { apply Z.leb_le in E4. destruct (target <? 63)%Z eqn:E5.
      - apply Z.ltb_lt in E5. apply cnot_matrix_big_target; lia.
      - apply Z.ltb_ge in E5. apply cnot_matrix_huge_target; lia. }
    apply Z.leb_gt in E4. apply cnot_matrix_ok; lia.
  - destruct (qubit <? 0)%Z eqn:E1.
    + apply Z.ltb_lt in E1. now apply rz_matrix_neg.
    + apply Z.ltb_ge in E1. now apply rz_matrix_ok.
Qed.

Lemma eye_mono dim : np_eye dim = mono dim (fun c => c) (fun _ => C1).
Proof. reflexivity. Qed.

Lemma matmul_mono dim f2 w2 f1 w1 :
  (forall c, c < dim -> f1 c < dim) ->
  matmul (mono dim f2 w2) (mono dim f1 w1)
  = mono dim (fun c => f2 (f1 c)) (fun c => Cmult (w2 (f1 c)) (w1 c)).
Proof.
  intros Hf. destruct dim as [|d]; [reflexivity|].
  unfold mono. rewrite matmul_tabulate by lia.
  apply tabulate_ext. intros r c Hr Hc.
  rewrite Csum_ext with
    (G := fun k => if k =? f1 c
                   then (if r =? f2 k then Cmult (w2 k) (w1 c) else C0)
                   else C0).
  - rewrite Csum_single_lt by now apply Hf. reflexivity.
  - intros k _. destruct (k =? f1 c), (r =? f2 k);
      now autorewrite with cplx.
Qed.

Lemma mono_ext dim f g w v :
  (forall c, c < dim -> f c = g c) -> (forall c, c < dim -> w c = v c) ->
  mono dim f w = mono dim g v.
Proof.
  intros Hf Hw. apply tabulate_ext. intros r c _ Hc.
  now rewrite Hf, Hw.
Qed.

Lemma gate_act_lt n g i :
  gate_error n g = None -> i < 2 ^ n -> gate_act g i < 2 ^ n.
Proof.
  destruct g as [control target | angle qubit]; simpl; [|auto].
  destruct (control <? 0)%Z eqn:E1; [discriminate|]. apply Z.ltb_ge in E1.
  destruct (Z.of_nat n <=? control)%Z eqn:E2.
  { apply Z.leb_le in E2. intros _ Hi.
    rewrite (cnot_act_control_above _ _ n) by lia. assumption. }
  destruct (target <? 0)%Z eqn:E3; [discriminate|]. apply Z.ltb_ge in E3.
  destruct (Z.of_nat n <=? target)%Z eqn:E4; [discriminate|].
  apply Z.leb_gt in E4. intros _ Hi. apply cnot_act_lt; lia.
Qed.

Lemma circuit_act_lt n c i :
  first_error n c = None -> i < 2 ^ n -> circuit_act c i < 2 ^ n.
Proof.
  revert i. induction c as [|g c IH]; simpl; intros i He Hi; [assumption|].
  destruct (gate_error n g) eqn:E; [discriminate|].
  apply IH; [assumption|]. now apply gate_act_lt.
Qed.

Lemma fold_gate_spec n c f0 w0 :
  (forall i, i < 2 ^ n -> f0 i < 2 ^ n) ->
  fold_left (gate_step (2 ^ n)) c (Ok (mono (2 ^ n) f0 w0))
  = match first_error n c with
    | Some e => Raise e
    | None =>
        Ok (mono (2 ^ n) (fun i => circuit_act c (f0 i))
                 (fun i => Cmult (circuit_phase c (f0 i)) (w0 i)))
    end.
Proof.
  revert f0 w0. induction c as [|g c IH]; intros f0 w0 Hf; simpl.
  - f_equal. apply mono_ext; intros; [reflexivity|]. now rewrite Cmult_1_l.
  - rewrite gate_matrix_spec. destruct (gate_error n g) eqn:E; simpl.
    + apply fold_gate_Raise.
    + rewrite matmul_mono by assumption. rewrite IH.
      * destruct (first_error n c); [reflexivity|]. f_equal.
        apply mono_ext; intros; [reflexivity|]. now rewrite Cmult_assoc.
      * intros i Hi. apply gate_act_lt; auto.
Qed.

Lemma gates_to_matrix_spec c n :
  gates_to_matrix c n
  = match first_error n c with
    | Some e => Raise e
    | None => Ok (mono (2 ^ n) (circuit_act c) (circuit_phase c))
    end.
Proof.
  unfold gates_to_matrix. cbv zeta. rewrite eye_mono, fold_gate_spec by auto.
  destruct (first_error n c); [reflexivity|]. f_equal.
  apply mono_ext; intros; [reflexivity|]. apply Cmult_1_r.
Qed.

Lemma mget_mono dim f w r c :
  r < dim -> c < dim ->
  mget (mono dim f w) r c = if r =? f c then w c else C0.
Proof. intros Hr Hc. unfold mono. now rewrite mget_tabulate. Qed.

Lemma gates_to_matrix_single g n :
  gates_to_matrix [g] n = gate_matrix (2 ^ n) g.
Proof.
  rewrite gates_to_matrix_spec, gate_matrix_spec. simpl.
  destruct (gate_error n g); [reflexivity|]. f_equal.
  apply mono_ext; intros; [reflexivity|]. apply Cmult_1_l.
Qed.

Lemma matmul_eye_l dim f w :
  matmul (np_eye dim) (mono dim f w) = mono dim f w.
Proof.
  destruct dim as [|d]; [reflexivity|].
  rewrite eye_mono. unfold mono. rewrite matmul_tabulate by lia.
  apply tabulate_ext. intros r c Hr Hc.
  rewrite Csum_ext with
    (G := fun k => if k =? r
                   then (if k =? f c then w c else C0) else C0).
  - now rewrite Csum_single_lt.
  - intros k _. rewrite (Nat.eqb_sym r k).
    destruct (k =? r), (k =? f c); now autorewrite with cplx.
Qed.

Lemma matmul_eye_r dim f w :
  matmul (mono dim f w) (np_eye dim) = mono dim f w.
Proof.
  rewrite eye_mono, matmul_mono by auto.
  apply mono_ext; intros; [reflexivity|]. apply Cmult_1_r.
Qed.

(** ** Single gates and the empty circuit *)

(** C10: for every qubit count [n] (in particular every [n >= 1]) the
    evaluator returns exactly the [2^n x 2^n] identity matrix on the empty
    circuit; prepending or appending the empty circuit changes no result,
    and the identity is a left and right unit of the product with every
    matrix the evaluator returns. *)
Theorem gates_to_matrix_empty (n : nat) :
  gates_to_matrix [] n = Ok (np_eye (2 ^ n))
  /\ forall c,
      gates_to_matrix ([] ++ c) n = gates_to_matrix c n
      /\ gates_to_matrix (c ++ []) n = gates_to_matrix c n
      /\ (M <- gates_to_matrix c n ;; Ok (matmul (np_eye (2 ^ n)) M))
         = gates_to_matrix c n
      /\ (M <- gates_to_matrix c n ;; Ok (matmul M (np_eye (2 ^ n))))
         = gates_to_matrix c n.
Proof.
  split; [reflexivity|]. intros c. rewrite app_nil_r.
  repeat split; rewrite gates_to_matrix_spec;
    destruct (first_error n c); simpl; try reflexivity.
  - now rewrite matmul_eye_l.
  - now rewrite matmul_eye_r.
Qed.

(** C2: for [n >= 1] and a CNOT with distinct control and target in
    [0, n), the matrix the evaluator builds has, in every column whose
    control bit is 0, the identity column, and in every column whose
    control bit is 1 a single 1 in the row of the basis index with the
    target bit flipped; the column map is an involution of [0, 2^n), so the
    matrix is a permutation matrix. *)
Theorem cnot_matrix_is_permutation (n : nat) (control target : Z) :
  1 <= n ->
  (0 <= control < Z.of_nat n)%Z -> (0 <= target < Z.of_nat n)%Z ->
  control <> target ->
  exists M,
    cnot_matrix (2 ^ n) control target = Ok M
    /\ gates_to_matrix [CNOT control target] n = Ok M
    /\ (forall r c, r < 2 ^ n -> c < 2 ^ n ->
          mget M r c
          = if Nat.testbit c (Z.to_nat control)
            then (if r =? Nat.lxor c (2 ^ Z.to_nat target) then C1 else C0)
            else (if r =? c then C1 else C0))
    /\ (forall c k,
          Nat.testbit (Nat.lxor c (2 ^ Z.to_nat target)) k
          = if k =? Z.to_nat target then negb (Nat.testbit c k)
            else Nat.testbit c k)
    /\ (forall c, c < 2 ^ n ->
          cnot_act (Z.to_nat control) (Z.to_nat target) c < 2 ^ n
          /\ cnot_act (Z.to_nat control) (Z.to_nat target)
               (cnot_act (Z.to_nat control) (Z.to_nat target) c) = c).
Proof.
  intros Hn Hc Ht Hne.
  exists (mono (2 ^ n) (cnot_act (Z.to_nat control) (Z.to_nat target))
               (fun _ => C1)).
  assert (E : cnot_matrix (2 ^ n) control target
              = Ok (mono (2 ^ n)
                      (cnot_act (Z.to_nat control) (Z.to_nat target))
                      (fun _ => C1)))
    by (apply cnot_matrix_ok; lia).
  split; [exact E|]. split; [rewrite gates_to_matrix_single; exact E|].
  split; [|split].
  - intros r c Hr Hcc. rewrite mget_mono by assumption. unfold cnot_act.
    now destruct (Nat.testbit c (Z.to_nat control)).
  - intros c k. rewrite testbit_lxor_pow2, (Nat.eqb_sym k).
    destruct (Z.to_nat target =? k), (Nat.testbit c k); reflexivity.
  - intros c Hcc. split.
    + apply cnot_act_lt; [lia | assumption].
    + apply cnot_act_involutive. lia.
Qed.

Lemma cnot_matrix_is_permutation_witness :
  exists M,
    cnot_matrix (2 ^ 2) 0 1 = Ok M
    /\ gates_to_matrix [CNOT 0 1] 2 = Ok M
    /\ (forall r c, r < 2 ^ 2 -> c < 2 ^ 2 ->
          mget M r c
          = if Nat.testbit c (Z.to_nat 0)
            then (if r =? Nat.lxor c (2 ^ Z.to_nat 1) then C1 else C0)
            else (if r =? c then C1 else C0))
    /\ (forall c k,
          Nat.testbit (Nat.lxor c (2 ^ Z.to_nat 1)) k
          = if k =? Z.to_nat 1 then negb (Nat.testbit c k)
            else Nat.testbit c k)
    /\ (forall c, c < 2 ^ 2 ->
          cnot_act (Z.to_nat 0) (Z.to_nat 1) c < 2 ^ 2
          /\ cnot_act (Z.to_nat 0) (Z.to_nat 1)
               (cnot_act (Z.to_nat 0) (Z.to_nat 1) c) = c).
Proof.
  apply (cnot_matrix_is_permutation 2 0 1); simpl; lia.
Defined.

(** C3: for [n >= 1], every angle [θ] and every qubit [q] in [0, n), the
    matrix the evaluator builds for RZ(θ, q) is diagonal, with entry
    [e^{-iθ/2}] at each basis index whose bit [q] is 1 and [e^{+iθ/2}] at
    each basis index whose bit [q] is 0; RZ(0, q) evaluates to the
    identity matrix. *)
Theorem rz_matrix_is_diagonal (n : nat) (angle : R) (qubit : Z) :
  1 <= n -> (0 <= qubit < Z.of_nat n)%Z ->
  (exists M,
     rz_matrix (2 ^ n) angle qubit = Ok M
     /\ gates_to_matrix [RZ angle qubit] n = Ok M
     /\ forall r c, r < 2 ^ n -> c < 2 ^ n ->
          mget M r c
          = if r =? c
            then (if Nat.testbit c (Z.to_nat qubit)
                  then Cexp_i (- (angle / 2)) else Cexp_i (angle / 2))
            else C0)
  /\ gates_to_matrix [RZ 0 qubit] n = Ok (np_eye (2 ^ n)).
Proof.
  intros Hn Hq. split.
  - exists (mono (2 ^ n) (fun c => c) (rz_phase angle (Z.to_nat qubit))).
    assert (E := rz_matrix_ok (2 ^ n) angle qubit ltac:(lia)).
    split; [exact E|]. split; [rewrite gates_to_matrix_single; exact E|].
    intros r c Hr Hc. now rewrite mget_mono by assumption.
  - rewrite gates_to_matrix_single. simpl. rewrite rz_matrix_ok by lia.
    f_equal. rewrite eye_mono. apply mono_ext; intros c Hc; [reflexivity|].
    unfold rz_phase. replace (0 / 2)%R with 0%R by lra.
    rewrite Ropp_0, Cexp_i_0. now destruct (Nat.testbit c (Z.to_nat qubit)).
Qed.

Lemma rz_matrix_is_diagonal_witness :
  (exists M,
     rz_matrix (2 ^ 1) PI 0 = Ok M
     /\ gates_to_matrix [RZ PI 0] 1 = Ok M
     /\ forall r c, r < 2 ^ 1 -> c < 2 ^ 1 ->
          mget M r c
          = if r =? c
            then (if Nat.testbit c (Z.to_nat 0)
                  then Cexp_i (- (PI / 2)) else Cexp_i (PI / 2))
            else C0)
  /\ gates_to_matrix [RZ 0 0] 1 = Ok (np_eye (2 ^ 1)).
Proof.
  apply (rz_matrix_is_diagonal 1 PI 0); simpl; lia.
Defined.

(** ** Composition and inversion of circuits on basis states *)

Lemma circuit_act_app c1 c2 i :
  circuit_act (c1 ++ c2) i = circuit_act c2 (circuit_act c1 i).
Proof. revert i. induction c1 as [|g c1 IH]; simpl; auto. Qed.

Lemma circuit_phase_app c1 c2 i :
  circuit_phase (c1 ++ c2) i
  = Cmult (circuit_phase c2 (circuit_act c1 i)) (circuit_phase c1 i).
Proof.
  revert i. induction c1 as [|g c1 IH]; simpl; intros i.
  - now rewrite Cmult_1_r.
  - now rewrite IH, Cmult_assoc.
Qed.

Lemma gate_act_negate g i : gate_act (negate_gate g) i = gate_act g i.
Proof. now destruct g. Qed.

Lemma gate_phase_negate g i :
  gate_phase (negate_gate g) i = Cconj (gate_phase g i).
Proof.
  destruct g as [control target | angle qubit]; simpl.
  - now rewrite Cconj_1.
  - unfold rz_phase. destruct (Nat.testbit i (Z.to_nat qubit));
      rewrite Cexp_i_conj; f_equal; lra.
Qed.

Lemma gate_error_negate n g : gate_error n (negate_gate g) = gate_error n g.
Proof. now destruct g. Qed.

Lemma gate_act_involutive n g i :
  gate_error n g = None -> cnot_distinct g = true -> i < 2 ^ n ->
  gate_act g (gate_act g i) = i.
Proof.
  destruct g as [control target | angle qubit]; simpl; [|reflexivity].
  destruct (control <? 0)%Z eqn:E1; [discriminate|]. apply Z.ltb_ge in E1.
  destruct (Z.of_nat n <=? control)%Z eqn:E2.
  { apply Z.leb_le in E2. intros _ _ Hi.
    now rewrite !(cnot_act_control_above _ _ n i) by lia. }
  destruct (target <? 0)%Z eqn:E3; [discriminate|]. apply Z.ltb_ge in E3.
  destruct (Z.of_nat n <=? target)%Z eqn:E4; [discriminate|].
  intros _ H _. apply negb_true_iff, Z.eqb_neq in H.
  apply cnot_act_involutive. lia.
Qed.

Lemma gate_phase_act g i : gate_phase g (gate_act g i) = gate_phase g i.
Proof. now destruct g. Qed.

Lemma V_dagger_cons g c :
  V_dagger_circuit (g :: c) = V_dagger_circuit c ++ [negate_gate g].
Proof. unfold V_dagger_circuit. simpl. now rewrite map_app. Qed.

Lemma first_error_None n c :
  first_error n c = None <-> Forall (fun g => gate_error n g = None) c.
Proof.
  induction c as [|g c IH]; simpl.
  - split; auto.
  - destruct (gate_error n g) eqn:E.
    + split; [discriminate|]. intros H. inversion H. congruence.
    + rewrite IH. split; intros H; [now constructor | now inversion H].
Qed.

Lemma first_error_V_dagger n c :
  first_error n c = None -> first_error n (V_dagger_circuit c) = None.
Proof.
  rewrite !first_error_None. intros H. unfold V_dagger_circuit.
  apply Forall_map, Forall_rev. eapply Forall_impl; [|exact H].
  intros g Hg. now rewrite gate_error_negate.
Qed.

Lemma first_error_tail n g c :
  first_error n (g :: c) = None ->
  gate_error n g = None /\ first_error n c = None.
Proof. simpl. destruct (gate_error n g); [discriminate | auto]. Qed.

Lemma circuit_ok_accepted n c :
  circuit_ok n c = true ->
  forallb cnot_distinct c = true /\ first_error n c = None.
Proof.
  induction c as [|g c IH]; simpl; [auto|].
  intros H. apply andb_true_iff in H. destruct H as [Hg Hc].
  destruct (IH Hc) as [IH1 IH2]. rewrite IH1, IH2, andb_true_r.
  destruct g as [control target | angle qubit]; simpl in *; unfold qubit_ok in *.
  - apply andb_true_iff in Hg. destruct Hg as [Hg Hd].
    apply andb_true_iff in Hg. destruct Hg as [H1 H2].
    apply andb_true_iff in H1, H2. destruct H1 as [H1 H1'], H2 as [H2 H2'].
    apply Z.leb_le in H1, H2. apply Z.ltb_lt in H1', H2'.
    now cmp.
  - apply andb_true_iff in Hg. destruct Hg as [H1 H1'].
    apply Z.leb_le in H1. now cmp.
Qed.

Lemma act_V_dagger_left n c i :
  forallb cnot_distinct c = true -> first_error n c = None -> i < 2 ^ n ->
  circuit_act (V_dagger_circuit c) (circuit_act c i) = i.
Proof.
  revert i. induction c as [|g c IH]; intros i Hd He Hi; [reflexivity|].
  simpl in Hd. apply andb_true_iff in Hd. destruct Hd as [Hg Hd].
  apply first_error_tail in He. destruct He as [Eg Ec].
  rewrite V_dagger_cons, circuit_act_app. simpl.
  rewrite IH by (auto using gate_act_lt). rewrite gate_act_negate.
  now apply (gate_act_involutive n).
Qed.

Lemma act_V_dagger_right n c i :
  forallb cnot_distinct c = true -> first_error n c = None -> i < 2 ^ n ->
  circuit_act c (circuit_act (V_dagger_circuit c) i) = i.
Proof.
  revert i. induction c as [|g c IH]; intros i Hd He Hi; [reflexivity|].
  simpl in Hd. apply andb_true_iff in Hd. destruct Hd as [Hg Hd].
  apply first_error_tail in He. destruct He as [Eg Ec].
  rewrite V_dagger_cons, circuit_act_app. simpl. rewrite gate_act_negate.
  rewrite (gate_act_involutive n); auto.
  apply circuit_act_lt; auto using first_error_V_dagger.
Qed.

Lemma phase_V_dagger n c i :
  forallb cnot_distinct c = true -> first_error n c = None -> i < 2 ^ n ->
  circuit_phase (V_dagger_circuit c) i
  = Cconj (circuit_phase c (circuit_act (V_dagger_circuit c) i)).
Proof.
  revert i. induction c as [|g c IH]; intros i Hd He Hi.
  - simpl. now rewrite Cconj_1.
  - simpl in Hd. apply andb_true_iff in Hd. destruct Hd as [Hg Hd].
    apply first_error_tail in He. destruct He as [Eg Ec].
    rewrite V_dagger_cons, circuit_phase_app, circuit_act_app. simpl.
    rewrite gate_act_negate, gate_phase_negate, Cmult_1_l.
    rewrite gate_phase_act.
    rewrite (gate_act_involutive n)
      by (auto; apply circuit_act_lt; auto using first_error_V_dagger).
    rewrite IH by auto. rewrite Cconj_mult. apply Cmult_comm.
Qed.

Lemma Cmult_pairs a b c d :
  Cmult (Cmult a b) (Cmult c d) = Cmult (Cmult a c) (Cmult b d).
Proof. csolve. Qed.

Lemma gate_phase_unit g i : Cmult (gate_phase g i) (Cconj (gate_phase g i)) = C1.
Proof.
  destruct g as [control target | angle qubit]; simpl.
  - rewrite Cconj_1. apply Cmult_1_l.
  - unfold rz_phase. destruct (Nat.testbit i (Z.to_nat qubit));
      apply Cexp_i_unit.
Qed.

Lemma circuit_phase_unit c i :
  Cmult (circuit_phase c i) (Cconj (circuit_phase c i)) = C1.
Proof.
  revert i. induction c as [|g c IH]; intros i; simpl.
  - rewrite Cconj_1. apply Cmult_1_l.
  - rewrite Cconj_mult, Cmult_pairs, IH, gate_phase_unit. apply Cmult_1_l.
Qed.

Lemma dagger_mono dim f w f' w' :
  (forall i, i < dim -> f' (f i) = i) ->
  (forall i, i < dim -> f (f' i) = i) ->
  (forall i, i < dim -> w' i = Cconj (w (f' i))) ->
  dagger (mono dim f w) = mono dim f' w'.
Proof.
  intros H1 H2 Hw. destruct dim as [|d]; [reflexivity|].
  unfold mono. rewrite dagger_tabulate by lia.
  apply tabulate_ext. intros j i Hj Hi.
  destruct (i =? f j) eqn:E1, (j =? f' i) eqn:E2.
  - apply Nat.eqb_eq in E2. subst j. now rewrite Hw.
  - apply Nat.eqb_eq in E1. apply Nat.eqb_neq in E2. subst i.
    rewrite H1 in E2 by assumption. contradiction.
  - apply Nat.eqb_neq in E1. apply Nat.eqb_eq in E2. subst j.
    rewrite H2 in E1 by assumption. contradiction.
  - apply Cconj_0.
Qed.

Lemma gates_to_matrix_V_dagger n c :
  forallb cnot_distinct c = true -> first_error n c = None ->
  gates_to_matrix (V_dagger_circuit c) n
  = Ok (dagger (mono (2 ^ n) (circuit_act c) (circuit_phase c))).
Proof.
  intros Hd He. rewrite gates_to_matrix_spec, first_error_V_dagger by assumption.
  f_equal. symmetry. apply dagger_mono; intros i Hi.
  - now apply (act_V_dagger_left n).
  - now apply (act_V_dagger_right n).
  - now apply (phase_V_dagger n).
Qed.

(** ** The inverse-circuit law and unitarity *)

(** C1: for every circuit of CNOT and RZ gates over [n] qubits, with each
    qubit index in [0, n) and each CNOT control distinct from its target,
    the evaluator returns on the reversed circuit with negated RZ angles
    the conjugate transpose of what it returns on the circuit. *)
Theorem inverse_circuit_law (c : circuit) (n : nat) :
  circuit_ok n c = true ->
  exists M,
    gates_to_matrix c n = Ok M
    /\ gates_to_matrix (V_dagger_circuit c) n = Ok (dagger M).
Proof.
  intros H. apply circuit_ok_accepted in H. destruct H as [Hd He].
  exists (mono (2 ^ n) (circuit_act c) (circuit_phase c)). split.
  - now rewrite gates_to_matrix_spec, He.
  - now apply gates_to_matrix_V_dagger.
Qed.

Lemma inverse_circuit_law_witness :
  exists M,
    gates_to_matrix [CNOT 0 1; RZ PI 1; CNOT 1 0] 2 = Ok M
    /\ gates_to_matrix (V_dagger_circuit [CNOT 0 1; RZ PI 1; CNOT 1 0]) 2
       = Ok (dagger M).
Proof.
  apply (inverse_circuit_law [CNOT 0 1; RZ PI 1; CNOT 1 0] 2). reflexivity.
Defined.

(** ** Maximum of an array *)

Lemma fold_left_Rmax_ge xs x :
  (x <= fold_left Rmax xs x)%R
  /\ forall y, In y xs -> (y <= fold_left Rmax xs x)%R.
Proof.
  revert x. induction xs as [|a xs IH]; intros x; simpl.
  - split; [lra | contradiction].
  - destruct (IH (Rmax x a)) as [H1 H2].
    pose proof (Rmax_l x a). pose proof (Rmax_r x a).
    split; [lra|]. intros y [Hy|Hy]; [subst; lra | auto].
Qed.

Lemma fold_left_Rmax_in xs x :
  fold_left Rmax xs x = x \/ In (fold_left Rmax xs x) xs.
Proof.
  revert x. induction xs as [|a xs IH]; intros x; simpl; [auto|].
  destruct (IH (Rmax x a)) as [H|H]; [|auto].
  rewrite H. unfold Rmax. destruct (Rle_dec x a); auto.
Qed.

Lemma np_max_spec (l : list (list R)) :
  concat l <> [] ->
  exists m, np_max l = Ok m /\ In m (concat l)
            /\ forall y, In y (concat l) -> (y <= m)%R.
Proof.
  unfold np_max. destruct (concat l) as [|x xs]; [congruence|]. intros _.
  exists (fold_left Rmax xs x). split; [reflexivity|].
  destruct (fold_left_Rmax_ge xs x) as [H1 H2].
  split.
  - destruct (fold_left_Rmax_in xs x) as [H|H]; [rewrite H; now left | now right].
  - intros y [Hy|Hy]; [subst; assumption | auto].
Qed.

Lemma np_abs_tabulate rows cols F :
  np_abs (tabulate rows cols F)
  = map (fun i => map (fun j => Cmod (F i j)) (seq 0 cols)) (seq 0 rows).
Proof.
  unfold np_abs, tabulate. rewrite map_map. apply map_ext. intros i.
  now rewrite map_map.
Qed.

Lemma in_abs_tabulate rows cols F y :
  In y (concat (np_abs (tabulate rows cols F)))
  <-> exists i j, i < rows /\ j < cols /\ y = Cmod (F i j).
Proof.
  rewrite np_abs_tabulate, in_concat. split.
  - intros [row [Hrow Hy]].
    apply in_map_iff in Hrow. destruct Hrow as [i [Hi Hin]]. subst row.
    apply in_map_iff in Hy.
    destruct Hy as [j [Hj Hjn]]. apply in_seq in Hin, Hjn.
    exists i, j. repeat split; try lia. now symmetry.
  - intros [i [j [Hi [Hj Hy]]]].
    exists (map (fun j => Cmod (F i j)) (seq 0 cols)). split.
    + apply in_map_iff. exists i. split; [reflexivity|].
      apply in_seq. lia.
    + apply in_map_iff. exists j. split; [now symmetry|].
      apply in_seq. lia.
Qed.

Lemma list_as_map_seq (A : Type) (d : A) (l : list A) :
  l = map (fun k => nth k l d) (seq 0 (length l)).
Proof.
  apply nth_ext with (d := d) (d' := d).
  - now rewrite length_map, length_seq.
  - intros k Hk. now rewrite nth_map_seq.
Qed.

Lemma has_shape_tabulate rows cols M :
  has_shape rows cols M -> M = tabulate rows cols (mget M).
Proof.
  intros [Hl Hr]. unfold tabulate. subst rows.
  rewrite (list_as_map_seq (list C) [] M) at 1.
  apply map_ext_in. intros i Hi. apply in_seq in Hi.
  assert (Hlen : length (nth i M []) = cols).
  { rewrite Forall_forall in Hr. apply Hr. apply nth_In. lia. }
  rewrite (list_as_map_seq C C0 (nth i M [])) at 1. now rewrite Hlen.
Qed.

Lemma tabulate_has_shape rows cols F : has_shape rows cols (tabulate rows cols F).
Proof.
  split; [apply length_tabulate|]. apply Forall_forall. intros row H.
  unfold tabulate in H. apply in_map_iff in H. destruct H as [i [Hi _]].
  subst row. now rewrite length_map, length_seq.
Qed.

Lemma ncols_has_shape rows cols M :
  0 < rows -> has_shape rows cols M -> ncols M = cols.
Proof.
  intros Hr H. rewrite (has_shape_tabulate rows cols M H).
  now apply ncols_tabulate.
Qed.

Lemma np_max_abs_tabulate rows cols F :
  0 < rows -> 0 < cols ->
  exists m,
    np_max (np_abs (tabulate rows cols F)) = Ok m
    /\ (forall i j, i < rows -> j < cols -> (Cmod (F i j) <= m)%R)
    /\ (exists i j, i < rows /\ j < cols /\ m = Cmod (F i j)).
Proof.
  intros Hr Hc.
  destruct (np_max_spec (np_abs (tabulate rows cols F))) as [m [E [Hin Hub]]].
  - intros H.
    assert (Hx : In (Cmod (F 0 0)) (concat (np_abs (tabulate rows cols F))))
      by (apply in_abs_tabulate; exists 0, 0; auto).
    rewrite H in Hx. contradiction.
  - exists m. split; [exact E|]. split.
    + intros i j Hi Hj. apply Hub. apply in_abs_tabulate. exists i, j. auto.
    + now apply in_abs_tabulate.
Qed.

(** ** The error metrics of the driver *)

(** C9: for an original matrix [U] and a reconstruction [U'] of one square
    shape, the driver's [difference] is the maximum absolute element-wise
    difference [d = max |U - U'|], [relative_error] is [d] divided by the
    maximum element magnitude [m] of [U], and the reconstruction is
    accepted exactly when [d < 1e-6], that is exactly when every entry
    differs by less than [1e-6].  The division is numpy's: [m] is zero
    exactly when [U] is the zero array, and then the relative error is
    [nan] when [d] is zero too and [inf] otherwise; for any other [U] it
    is the real quotient [d / m]. *)
Theorem driver_metrics (dim : nat) (U U' : matrix) :
  0 < dim -> has_shape dim dim U -> has_shape dim dim U' ->
  exists d m,
    difference U U' = Ok d
    /\ (forall i j, i < dim -> j < dim ->
          (Cmod (Cminus (mget U i j) (mget U' i j)) <= d)%R)
    /\ (exists i j, i < dim /\ j < dim
                    /\ d = Cmod (Cminus (mget U i j) (mget U' i j)))
    /\ np_max (np_abs U) = Ok m
    /\ (forall i j, i < dim -> j < dim -> (Cmod (mget U i j) <= m)%R)
    /\ (exists i j, i < dim /\ j < dim /\ m = Cmod (mget U i j))
    /\ relative_error U U' = Ok (np_divide d m)
    /\ (m = 0%R <-> forall i j, i < dim -> j < dim -> mget U i j = C0)
    /\ (m <> 0%R -> relative_error U U' = Ok (Finite (d / m)))
    /\ (m = 0%R -> d = 0%R -> relative_error U U' = Ok NaN)
    /\ (m = 0%R -> d <> 0%R -> relative_error U U' = Ok PosInf)
    /\ (is_accurate U U' = Ok true <-> (d < 1 / 10 ^ 6)%R)
    /\ (is_accurate U U' = Ok false <-> (1 / 10 ^ 6 <= d)%R)
    /\ (is_accurate U U' = Ok true <->
        forall i j, i < dim -> j < dim ->
          (Cmod (Cminus (mget U i j) (mget U' i j)) < 1 / 10 ^ 6)%R).
Proof.
  intros Hdim HU HU'.
  destruct (np_max_abs_tabulate dim dim
              (fun i j => Cminus (mget U i j) (mget U' i j)) Hdim Hdim)
    as [d [Ed [Hd1 Hd2]]].
  destruct (np_max_abs_tabulate dim dim (mget U) Hdim Hdim)
    as [m [Em [Hm1 Hm2]]].
  rewrite <- (has_shape_tabulate dim dim U HU) in Em.
  assert (Ediff : difference U U' = Ok d).
  { unfold difference, mat_sub.
    rewrite (ncols_has_shape dim dim U Hdim HU). destruct HU as [HU _].
    now rewrite HU. }
  assert (Eacc : is_accurate U U'
                 = Ok (if Rlt_dec d (1 / 10 ^ 6) then true else false))
    by (unfold is_accurate; now rewrite Ediff).
  assert (Erel : relative_error U U' = Ok (np_divide d m))
    by (unfold relative_error; now rewrite Ediff, Em).
  assert (Hd0 : (0 <= d)%R).
  { destruct Hd2 as [i [j [_ [_ E]]]]. rewrite E. apply Cmod_nonneg. }
  exists d, m. repeat split; auto.
  - intros Hm i j Hi Hj. apply Cmod_eq_0.
    pose proof (Hm1 i j Hi Hj). pose proof (Cmod_nonneg (mget U i j)). lra.
  - intros H. destruct Hm2 as [i [j [Hi [Hj E]]]].
    now rewrite E, H, Cmod_0.
  - intros Hm. rewrite Erel. unfold np_divide.
    now destruct (Req_EM_T m 0).
  - intros Hm Hd. rewrite Erel. unfold np_divide.
    destruct (Req_EM_T m 0); [|contradiction].
    now destruct (Req_EM_T d 0).
  - intros Hm Hd. rewrite Erel. unfold np_divide.
    destruct (Req_EM_T m 0); [|contradiction].
    destruct (Req_EM_T d 0); [contradiction|].
    destruct (Rlt_dec 0 d); [reflexivity | lra].
  - rewrite Eacc. destruct (Rlt_dec d (1 / 10 ^ 6)); [auto | discriminate].
  - intros H. rewrite Eacc. now destruct (Rlt_dec d (1 / 10 ^ 6)).
  - rewrite Eacc. destruct (Rlt_dec d (1 / 10 ^ 6)); [discriminate | lra].
  - intros H. rewrite Eacc. destruct (Rlt_dec d (1 / 10 ^ 6)); [lra | auto].
  - rewrite Eacc. destruct (Rlt_dec d (1 / 10 ^ 6)); [|discriminate].
    intros _ i j Hi Hj. specialize (Hd1 i j Hi Hj). lra.
  - intros H. rewrite Eacc. destruct (Rlt_dec d (1 / 10 ^ 6)); [auto|].
    destruct Hd2 as [i [j [Hi [Hj E]]]]. specialize (H i j Hi Hj). lra.
Qed.

Lemma difference_self dim F :
  0 < dim -> difference (tabulate dim dim F) (tabulate dim dim F) = Ok 0%R.
Proof.
  intros Hdim. unfold difference, mat_sub.
  rewrite length_tabulate, ncols_tabulate by assumption.
  destruct (np_max_abs_tabulate dim dim
              (fun i j => Cminus (mget (tabulate dim dim F) i j)
                                 (mget (tabulate dim dim F) i j)) Hdim Hdim)
    as [m [E [_ [i [j [_ [_ Hm]]]]]]].
  rewrite E. f_equal. rewrite Hm, Cminus_diag. apply Cmod_0.
Qed.

(** C5, as the code has it: for every circuit of CNOT and RZ gates in
    which each CNOT has its control distinct from its target, with any
    angles, and for every [n]: when no gate makes the evaluator raise (as
    when all qubit indices are in [0, n)), the matrix returned is exactly
    unitary, so the unitarity error the driver measures is 0. *)
Theorem evaluated_circuit_is_unitary (c : circuit) (n : nat) :
  forallb cnot_distinct c = true -> first_error n c = None ->
  exists M,
    gates_to_matrix c n = Ok M
    /\ matmul M (dagger M) = np_eye (2 ^ n)
    /\ matmul (dagger M) M = np_eye (2 ^ n)
    /\ difference (matmul M (dagger M)) (np_eye (2 ^ n)) = Ok 0%R.
Proof.
  intros Hd He.
  exists (mono (2 ^ n) (circuit_act c) (circuit_phase c)).
  assert (ED : dagger (mono (2 ^ n) (circuit_act c) (circuit_phase c))
               = mono (2 ^ n) (circuit_act (V_dagger_circuit c))
                      (circuit_phase (V_dagger_circuit c))).
  { apply dagger_mono; intros i Hi.
    - now apply (act_V_dagger_left n).
    - now apply (act_V_dagger_right n).
    - now apply (phase_V_dagger n). }
  assert (E1 : matmul (mono (2 ^ n) (circuit_act c) (circuit_phase c))
                 (dagger (mono (2 ^ n) (circuit_act c) (circuit_phase c)))
               = np_eye (2 ^ n)).
  { rewrite ED, matmul_mono
      by (intros; apply circuit_act_lt; auto using first_error_V_dagger).
    rewrite eye_mono. apply mono_ext; intros i Hi.
    - now apply (act_V_dagger_right n).
    - rewrite (phase_V_dagger n) by assumption. apply circuit_phase_unit. }
  split; [now rewrite gates_to_matrix_spec, He|].
  split; [exact E1|]. split.
  - rewrite ED, matmul_mono by (intros; apply circuit_act_lt; auto).
    rewrite eye_mono. apply mono_ext; intros i Hi.
    + now apply (act_V_dagger_left n).
    + rewrite (phase_V_dagger n)
        by (auto; apply circuit_act_lt; auto).
      rewrite (act_V_dagger_left n) by assumption.
      rewrite Cmult_comm. apply circuit_phase_unit.
  - rewrite E1. apply difference_self, pow2_pos.
Qed.

Lemma evaluated_circuit_is_unitary_witness :
  exists M,
    gates_to_matrix [CNOT 0 1; RZ PI 5; CNOT 7 3; CNOT 1 0] 2 = Ok M
    /\ matmul M (dagger M) = np_eye (2 ^ 2)
    /\ matmul (dagger M) M = np_eye (2 ^ 2)
    /\ difference (matmul M (dagger M)) (np_eye (2 ^ 2)) = Ok 0%R.
Proof.
  apply (evaluated_circuit_is_unitary
           [CNOT 0 1; RZ PI 5; CNOT 7 3; CNOT 1 0] 2); reflexivity.
Defined.

Lemma driver_metrics_witness :
  exists d m,
    difference (np_eye 2) (np_eye 2) = Ok d
    /\ (forall i j, i < 2 -> j < 2 ->
          (Cmod (Cminus (mget (np_eye 2) i j) (mget (np_eye 2) i j)) <= d)%R)
    /\ (exists i j, i < 2 /\ j < 2
                    /\ d = Cmod (Cminus (mget (np_eye 2) i j)
                                         (mget (np_eye 2) i j)))
    /\ np_max (np_abs (np_eye 2)) = Ok m
    /\ (forall i j, i < 2 -> j < 2 -> (Cmod (mget (np_eye 2) i j) <= m)%R)
    /\ (exists i j, i < 2 /\ j < 2 /\ m = Cmod (mget (np_eye 2) i j))
    /\ relative_error (np_eye 2) (np_eye 2) = Ok (np_divide d m)
    /\ (m = 0%R
        <-> forall i j, i < 2 -> j < 2 -> mget (np_eye 2) i j = C0)
    /\ (m <> 0%R
        -> relative_error (np_eye 2) (np_eye 2) = Ok (Finite (d / m)))
    /\ (m = 0%R -> d = 0%R
        -> relative_error (np_eye 2) (np_eye 2) = Ok NaN)
    /\ (m = 0%R -> d <> 0%R
        -> relative_error (np_eye 2) (np_eye 2) = Ok PosInf)
    /\ (is_accurate (np_eye 2) (np_eye 2) = Ok true <-> (d < 1 / 10 ^ 6)%R)
    /\ (is_accurate (np_eye 2) (np_eye 2) = Ok false
        <-> (1 / 10 ^ 6 <= d)%R)
    /\ (is_accurate (np_eye 2) (np_eye 2) = Ok true <->
        forall i j, i < 2 -> j < 2 ->
          (Cmod (Cminus (mget (np_eye 2) i j) (mget (np_eye 2) i j))
           < 1 / 10 ^ 6)%R).
Proof.
  apply (driver_metrics 2 (np_eye 2) (np_eye 2)).
  - lia.
  - apply tabulate_has_shape.
  - apply tabulate_has_shape.
Defined.

Lemma Cmod_eq z r :
  (0 <= r)%R -> (fst z * fst z + snd z * snd z = r * r)%R -> Cmod z = r.
Proof.
  intros Hr H. unfold Cmod. rewrite H. now apply sqrt_square.
Qed.

(** C5, counterexample to the claim as stated: a CNOT whose control is its
    own target is accepted by the evaluator, and the matrix returned is not
    unitary: entry (0, 0) of [M M†] is 2 and the unitarity error is 1. *)
Lemma control_equal_target_not_unitary :
  exists M,
    gates_to_matrix [CNOT 0 0] 1 = Ok M
    /\ mget (matmul M (dagger M)) 0 0 = (2%R, 0%R)
    /\ matmul M (dagger M) <> np_eye (2 ^ 1)
    /\ difference (matmul M (dagger M)) (np_eye (2 ^ 1)) = Ok 1%R.
Proof.
  exists [[C1; C1]; [C0; C0]].
  split.
  { rewrite gates_to_matrix_spec. simpl. f_equal.
    unfold mono, tabulate. simpl. now rewrite Cmult_1_l. }
  assert (E : matmul [[C1; C1]; [C0; C0]] (dagger [[C1; C1]; [C0; C0]])
              = [[(2%R, 0%R); C0]; [C0; C0]]).
  { cbv [matmul dagger tabulate ncols length nth map seq mget Csum fold_right].
    repeat f_equal; csolve. }
  rewrite E. split; [reflexivity|]. split.
  - intros H. inversion H. lra.
  - unfold difference, mat_sub, np_max, np_abs. simpl.
    unfold mget. simpl. f_equal.
    rewrite (Cmod_eq (Cminus (2%R, 0%R) C1) 1)
      by (unfold Cminus, Cplus, Copp, C1; simpl; lra).
    rewrite (Cmod_eq (Cminus C0 C0) 0)
      by (unfold Cminus, Cplus, Copp, C0; simpl; lra).
    rewrite (Cmod_eq (Cminus C0 C1) 1)
      by (unfold Cminus, Cplus, Copp, C0, C1; simpl; lra).
    unfold Rmax. repeat (destruct (Rle_dec _ _); try lra).
Qed.

(** ** Qubit indices out of range *)

Lemma first_error_app n c1 c2 :
  first_error n (c1 ++ c2)
  = match first_error n c1 with
    | Some e => Some e
    | None => first_error n c2
    end.
Proof.
  induction c1 as [|g c1 IH]; simpl; [reflexivity|].
  now destruct (gate_error n g).
Qed.




(** The two exceptions of an out-of-range CNOT target on one qubit: target
    5 leaves the array, target 63 leaves the 64-bit integers. *)
Lemma cnot_target_out_of_range_examples :
  gate_matrix (2 ^ 1) (CNOT 0 5) = Raise IndexError
  /\ gate_matrix (2 ^ 1) (CNOT 0 63) = Raise OverflowError
  /\ gates_to_matrix [CNOT 0 63] 1 = Raise OverflowError.
Proof.
  rewrite !gate_matrix_spec, gates_to_matrix_spec. repeat split.
Qed.

(** ** Matrices acting on state vectors *)

Lemma length_matvec M v : length (matvec M v) = length M.
Proof. unfold matvec. apply length_map. Qed.

Lemma matvec_matmul_tabulate n m p F G v :
  0 < m -> length v = p ->
  matvec (matmul (tabulate n m F) (tabulate m p G)) v
  = matvec (tabulate n m F) (matvec (tabulate m p G) v).
Proof.
  intros Hm Hv. rewrite matmul_tabulate by assumption.
  rewrite (matvec_tabulate n p) by assumption.
  rewrite (matvec_tabulate n m)
    by now rewrite length_matvec, length_tabulate.
  rewrite (matvec_tabulate m p) by assumption.
  apply map_ext. intros i.
  rewrite Csum_ext with
    (G := fun j => Csum (map (fun k => Cmult (Cmult (F i k) (G k j))
                                              (nth j v C0)) (seq 0 m)))
    by (intros; apply Csum_mult_r).
  rewrite Csum_exchange. apply Csum_ext. intros k Hk. apply in_seq in Hk.
  rewrite nth_map_seq by lia. rewrite Csum_mult_l.
  apply Csum_ext. intros j _. now rewrite Cmult_assoc.
Qed.

Lemma matvec_mono_compose dim f2 w2 f1 w1 v :
  (forall c, c < dim -> f1 c < dim) -> length v = dim ->
  matvec (mono dim f2 w2) (matvec (mono dim f1 w1) v)
  = matvec (mono dim (fun c => f2 (f1 c))
                 (fun c => Cmult (w2 (f1 c)) (w1 c))) v.
Proof.
  intros Hf Hv. rewrite <- matmul_mono by assumption.
  destruct dim as [|d]; [reflexivity|].
  unfold mono. now rewrite matvec_matmul_tabulate by (assumption || lia).
Qed.

Lemma matvec_eye dim v : length v = dim -> matvec (np_eye dim) v = v.
Proof.
  intros Hv. unfold np_eye. rewrite matvec_tabulate by assumption.
  transitivity (map (fun k => nth k v C0) (seq 0 (length v)));
    [|symmetry; apply list_as_map_seq].
  rewrite Hv. apply map_ext_in. intros i Hi. apply in_seq in Hi.
  rewrite Csum_ext with
    (G := fun k => if k =? i then nth k v C0 else C0).
  - now rewrite Csum_single_lt by lia.
  - intros k _. rewrite (Nat.eqb_sym i k).
    destruct (k =? i); now autorewrite with cplx.
Qed.

Lemma matvec_mono_basis dim f w k :
  k < dim ->
  matvec (mono dim f w) (basis_state dim k)
  = map (fun r => if r =? f k then w k else C0) (seq 0 dim).
Proof.
  intros Hk. unfold mono, basis_state.
  rewrite matvec_tabulate by now rewrite length_map, length_seq.
  apply map_ext. intros r.
  rewrite Csum_ext with
    (G := fun c => if c =? k then (if r =? f c then w c else C0) else C0).
  - now rewrite Csum_single_lt.
  - intros c Hc. apply in_seq in Hc. rewrite nth_map_seq by lia.
    destruct (c =? k), (r =? f c); now autorewrite with cplx.
Qed.

Lemma fold_apply_Raise dim l e : fold_left (apply_gate dim) l (Raise e) = Raise e.
Proof. induction l; simpl; auto. Qed.

Lemma fold_apply_spec n c f0 w0 v :
  (forall i, i < 2 ^ n -> f0 i < 2 ^ n) -> length v = 2 ^ n ->
  fold_left (apply_gate (2 ^ n)) c (Ok (matvec (mono (2 ^ n) f0 w0) v))
  = match first_error n c with
    | Some e => Raise e
    | None =>
        Ok (matvec (mono (2 ^ n) (fun i => circuit_act c (f0 i))
                         (fun i => Cmult (circuit_phase c (f0 i)) (w0 i))) v)
    end.
Proof.
  revert f0 w0. induction c as [|g c IH]; intros f0 w0 Hf Hv; simpl.
  - do 2 f_equal. apply mono_ext; intros; [reflexivity|].
    now rewrite Cmult_1_l.
  - rewrite gate_matrix_spec. destruct (gate_error n g) eqn:E; simpl.
    + apply fold_apply_Raise.
    + rewrite matvec_mono_compose by assumption. rewrite IH.
      * destruct (first_error n c); [reflexivity|]. do 2 f_equal.
        apply mono_ext; intros; [reflexivity|]. now rewrite Cmult_assoc.
      * intros i Hi. apply gate_act_lt; auto.
      * assumption.
Qed.

Lemma apply_in_list_order_spec c n v :
  length v = 2 ^ n ->
  apply_in_list_order c n v
  = match first_error n c with
    | Some e => Raise e
    | None => Ok (matvec (mono (2 ^ n) (circuit_act c) (circuit_phase c)) v)
    end.
Proof.
  intros Hv. unfold apply_in_list_order.
  rewrite <- (matvec_eye (2 ^ n) v Hv) at 1.
  rewrite eye_mono, fold_apply_spec by auto.
  destruct (first_error n c); [reflexivity|]. do 2 f_equal.
  apply mono_ext; intros; [reflexivity|]. apply Cmult_1_r.
Qed.

Lemma product_in_list_order_spec n c :
  product_in_list_order (2 ^ n) c
  = match first_error n c with
    | Some e => Raise e
    | None => Ok (mono (2 ^ n) (circuit_act c) (circuit_phase c))
    end.
Proof.
  induction c as [|g c IH]; simpl.
  - reflexivity.
  - rewrite gate_matrix_spec. destruct (gate_error n g) eqn:E; simpl;
      [reflexivity|].
    rewrite IH. destruct (first_error n c) eqn:Ec; simpl; [reflexivity|].
    f_equal. apply matmul_mono. intros i Hi. now apply gate_act_lt.
Qed.

(** ** The order in which the gates are composed *)

(** C4: for every circuit [g_1, ..., g_k] and qubit count [n], the
    evaluator returns the product [M(g_k) ... M(g_1)] of the single-gate
    matrices, each new gate multiplied on the left; applied to a state
    vector, the first-listed gate [g_1] acts first on the state. *)
Theorem gates_to_matrix_ordered_product (c : circuit) (g : gate) (n : nat)
  (v : list C) :
  length v = 2 ^ n ->
  gates_to_matrix c n = product_in_list_order (2 ^ n) c
  /\ gates_to_matrix (c ++ [g]) n
     = (M <- gates_to_matrix c n ;;
        m <- gate_matrix (2 ^ n) g ;;
        Ok (matmul m M))
  /\ (M <- gates_to_matrix c n ;; Ok (matvec M v))
     = apply_in_list_order c n v.
Proof.
  intros Hv. split; [|split].
  - now rewrite gates_to_matrix_spec, product_in_list_order_spec.
  - unfold gates_to_matrix. cbv zeta. now rewrite fold_left_app.
  - rewrite gates_to_matrix_spec, apply_in_list_order_spec by assumption.
    now destruct (first_error n c).
Qed.

Lemma gates_to_matrix_ordered_product_witness :
  gates_to_matrix [CNOT 0 1; RZ PI 0] 2
  = product_in_list_order (2 ^ 2) [CNOT 0 1; RZ PI 0]
  /\ gates_to_matrix ([CNOT 0 1; RZ PI 0] ++ [CNOT 1 0]) 2
     = (M <- gates_to_matrix [CNOT 0 1; RZ PI 0] 2 ;;
        m <- gate_matrix (2 ^ 2) (CNOT 1 0) ;;
        Ok (matmul m M))
  /\ (M <- gates_to_matrix [CNOT 0 1; RZ PI 0] 2 ;;
      Ok (matvec M (basis_state 4 1)))
     = apply_in_list_order [CNOT 0 1; RZ PI 0] 2 (basis_state 4 1).
Proof.
  apply (gates_to_matrix_ordered_product
           [CNOT 0 1; RZ PI 0] (CNOT 1 0) 2 (basis_state 4 1)).
  reflexivity.
Defined.

(** C7, counterexample to the claim as stated: on the basis state [|1>] of
    two qubits the matrix of [CNOT(0,1), CNOT(1,0)] gives [|2>], while
    applying the first-listed gate last gives [|3>]. *)
Lemma first_gate_not_applied_last :
  (M <- gates_to_matrix [CNOT 0 1; CNOT 1 0] 2 ;;
   Ok (matvec M (basis_state 4 1)))
  = Ok (basis_state 4 2)
  /\ apply_first_gate_last [CNOT 0 1; CNOT 1 0] 2 (basis_state 4 1)
     = Ok (basis_state 4 3)
  /\ (M <- gates_to_matrix [CNOT 0 1; CNOT 1 0] 2 ;;
      Ok (matvec M (basis_state 4 1)))
     <> apply_first_gate_last [CNOT 0 1; CNOT 1 0] 2 (basis_state 4 1).
Proof.
  assert (E1 : (M <- gates_to_matrix [CNOT 0 1; CNOT 1 0] 2 ;;
                Ok (matvec M (basis_state 4 1)))
               = Ok (basis_state 4 2)).
  { rewrite gates_to_matrix_spec. simpl first_error. cbn [bind].
    change (2 ^ 2) with 4. rewrite matvec_mono_basis by lia.
    f_equal. simpl. now rewrite !Cmult_1_l. }
  assert (E2 : apply_first_gate_last [CNOT 0 1; CNOT 1 0] 2 (basis_state 4 1)
               = Ok (basis_state 4 3)).
  { unfold apply_first_gate_last. cbn [fold_right]. unfold apply_gate.
    rewrite !gate_matrix_spec. simpl gate_error. cbn [bind].
    change (2 ^ 2) with 4. rewrite matvec_mono_basis by lia.
    change (map (fun r => if r =? gate_act (CNOT 1 0) 1
                          then gate_phase (CNOT 1 0) 1 else C0) (seq 0 4))
      with (basis_state 4 1).
    rewrite matvec_mono_basis by lia. reflexivity. }
  split; [exact E1|]. split; [exact E2|].
  rewrite E1, E2. intros H. inversion H. lra.
Qed.

(** C7, as the code has it: the evaluator multiplies each gate matrix on
    the left of the accumulated one, so on a state vector the first gate of
    the list is applied first and the last gate of the list last. *)
Theorem first_gate_applied_first (g : gate) (c : circuit) (n : nat)
  (v : list C) :
  length v = 2 ^ n ->
  (M <- gates_to_matrix (g :: c) n ;; Ok (matvec M v))
  = (m <- gate_matrix (2 ^ n) g ;;
     M' <- gates_to_matrix c n ;;
     Ok (matvec M' (matvec m v)))
  /\ (M <- gates_to_matrix (c ++ [g]) n ;; Ok (matvec M v))
     = (M' <- gates_to_matrix c n ;;
        m <- gate_matrix (2 ^ n) g ;;
        Ok (matvec m (matvec M' v))).
Proof.
  intros Hv. split.
  - rewrite !gates_to_matrix_spec, gate_matrix_spec. simpl.
    destruct (gate_error n g) eqn:Eg; simpl; [reflexivity|].
    destruct (first_error n c) eqn:Ec; simpl; [reflexivity|].
    f_equal. rewrite matvec_mono_compose; auto.
    intros i Hi. now apply gate_act_lt.
  - rewrite !gates_to_matrix_spec, gate_matrix_spec, first_error_app. simpl.
    destruct (first_error n c) eqn:Ec; simpl; [reflexivity|].
    destruct (gate_error n g) eqn:Eg; simpl; [reflexivity|].
    f_equal. rewrite matvec_mono_compose; auto.
    + f_equal. apply mono_ext; intros i Hi.
      * now rewrite circuit_act_app.
      * rewrite circuit_phase_app. simpl. now rewrite Cmult_1_l.
    + intros i Hi. now apply circuit_act_lt.
Qed.

Lemma first_gate_applied_first_witness :
  (M <- gates_to_matrix (CNOT 0 1 :: [CNOT 1 0]) 2 ;;
   Ok (matvec M (basis_state 4 1)))
  = (m <- gate_matrix (2 ^ 2) (CNOT 0 1) ;;
     M' <- gates_to_matrix [CNOT 1 0] 2 ;;
     Ok (matvec M' (matvec m (basis_state 4 1))))
  /\ (M <- gates_to_matrix ([CNOT 1 0] ++ [CNOT 0 1]) 2 ;;
      Ok (matvec M (basis_state 4 1)))
     = (M' <- gates_to_matrix [CNOT 1 0] 2 ;;
        m <- gate_matrix (2 ^ 2) (CNOT 0 1) ;;
        Ok (matvec m (matvec M' (basis_state 4 1)))).
Proof.
  apply (first_gate_applied_first (CNOT 0 1) [CNOT 1 0] 2 (basis_state 4 1)).
  reflexivity.
Defined.

(** ** The CNOT staircase of a Walsh block *)

Lemma testbit_cnot_act q t i k :
  Nat.testbit (cnot_act q t i) k
  = xorb (Nat.testbit i k) (Nat.testbit i q && (t =? k)).
Proof.
  unfold cnot_act. destruct (Nat.testbit i q); simpl.
  - apply testbit_lxor_pow2.
  - now rewrite xorb_false_r.
Qed.

Lemma xor_bits_ext a b l :
  (forall q, In q l -> Nat.testbit a q = Nat.testbit b q) ->
  xor_bits a l = xor_bits b l.
Proof.
  intros H. unfold xor_bits. f_equal. now apply map_ext_in.
Qed.

Lemma staircase_act t others i k :
  ~ In t others ->
  Nat.testbit
    (circuit_act (map (fun q => CNOT (Z.of_nat q) (Z.of_nat t)) others) i) k
  = if k =? t then xorb (Nat.testbit i t) (xor_bits i others)
    else Nat.testbit i k.
Proof.
  revert i. induction others as [|q rest IH]; intros i Hn; simpl.
  - unfold xor_bits. simpl. rewrite xorb_false_r.
    destruct (k =? t) eqn:E; [|reflexivity].
    apply Nat.eqb_eq in E. now subst k.
  - rewrite !Nat2Z.id. rewrite IH by (intros H; apply Hn; now right).
    assert (Hq : q <> t) by (intros H; apply Hn; now left).
    rewrite !testbit_cnot_act, Nat.eqb_refl, andb_true_r.
    rewrite (xor_bits_ext (cnot_act q t i) i rest).
    + destruct (k =? t) eqn:E.
      * unfold xor_bits. simpl. fold (xor_bits i rest).
        now rewrite xorb_assoc.
      * rewrite (Nat.eqb_sym t k), E, andb_false_r. apply xorb_false_r.
    + intros q' Hq'. rewrite testbit_cnot_act.
      replace (t =? q') with false.
      * now rewrite andb_false_r, xorb_false_r.
      * symmetry. apply Nat.eqb_neq. intros H. subst q'. apply Hn. now right.
Qed.

Lemma staircase_phase t others i :
  circuit_phase (map (fun q => CNOT (Z.of_nat q) (Z.of_nat t)) others) i = C1.
Proof.
  revert i. induction others as [|q rest IH]; intros i; simpl; [reflexivity|].
  rewrite IH. apply Cmult_1_l.
Qed.

Lemma staircase_accepted n t others :
  t < n -> Forall (fun q => q < n /\ q <> t) others ->
  first_error n (map (fun q => CNOT (Z.of_nat q) (Z.of_nat t)) others) = None
  /\ forallb cnot_distinct
       (map (fun q => CNOT (Z.of_nat q) (Z.of_nat t)) others) = true.
Proof.
  intros Ht H. induction H as [|q rest [Hq Hne] _ [IH1 IH2]]; simpl; [auto|].
  rewrite IH1, IH2. now cmp.
Qed.

Lemma staircase_mirror t others :
  rev (map (fun q => CNOT (Z.of_nat q) (Z.of_nat t)) others)
  = V_dagger_circuit (map (fun q => CNOT (Z.of_nat q) (Z.of_nat t)) others).
Proof.
  unfold V_dagger_circuit. rewrite <- map_rev, map_map. reflexivity.
Qed.

Lemma subset_qubits_spec n S t others :
  subset_qubits n S = t :: others ->
  t < n /\ ~ In t others /\ Forall (fun q => q < n /\ q <> t) others.
Proof.
  intros E.
  assert (Hnd : NoDup (t :: others)).
  { rewrite <- E. apply NoDup_filter, seq_NoDup. }
  assert (Hin : forall q, In q (t :: others) -> q < n).
  { intros q Hq. rewrite <- E in Hq. apply filter_In in Hq.
    destruct Hq as [Hq _]. apply in_seq in Hq. lia. }
  inversion Hnd as [|x l Hnt Hnd']. subst.
  split; [apply Hin; now left|]. split; [assumption|].
  apply Forall_forall. intros q Hq. split.
  - apply Hin. now right.
  - intros Heq. subst q. contradiction.
Qed.

Lemma parity_land_subset n S i :
  parity n (Nat.land S i) = xor_bits i (subset_qubits n S).
Proof.
  unfold parity, subset_qubits, xor_bits.
  induction (seq 0 n) as [|k l IH]; simpl; [reflexivity|].
  rewrite Nat.land_spec, IH.
  destruct (Nat.testbit S k); simpl; [reflexivity|].
  now destruct (fold_right xorb false
                  (map (Nat.testbit i) (filter (Nat.testbit S) l))).
Qed.

Lemma walsh_block_spec n S a t others i :
  subset_qubits n S = t :: others -> i < 2 ^ n ->
  first_error n (walsh_block n S a) = None
  /\ circuit_act (walsh_block n S a) i = i
  /\ circuit_phase (walsh_block n S a) i = Cexp_i (a * walsh_sign n S i).
Proof.
  intros E Hi. unfold walsh_block. rewrite E. cbv zeta.
  destruct (subset_qubits_spec n S t others E) as [Ht [Hnt Hall]].
  destruct (staircase_accepted n t others Ht Hall) as [He Hd].
  set (st := map (fun q => CNOT (Z.of_nat q) (Z.of_nat t)) others) in *.
  assert (Hj : circuit_act st i < 2 ^ n) by now apply circuit_act_lt.
  split; [|split].
  - rewrite first_error_app, He. simpl. cmp.
    unfold st. rewrite staircase_mirror. now apply first_error_V_dagger.
  - rewrite circuit_act_app. simpl. unfold st at 1.
    rewrite staircase_mirror. now apply (act_V_dagger_left n).
  - rewrite circuit_phase_app. simpl. unfold st at 1 4.
    rewrite staircase_mirror at 1.
    rewrite (phase_V_dagger n)
      by (auto; apply circuit_act_lt; auto using first_error_V_dagger).
    rewrite !staircase_phase, Cconj_1, Cmult_1_l, Cmult_1_r.
    unfold rz_phase. rewrite Nat2Z.id. unfold st.
    rewrite staircase_act, Nat.eqb_refl by assumption.
    unfold walsh_sign. rewrite parity_land_subset, E.
    unfold xor_bits at 2. simpl. fold (xor_bits i others).
    destruct (xorb (Nat.testbit i t) (xor_bits i others)); f_equal; lra.
Qed.

Lemma subset_qubits_nonempty n S :
  0 < S -> S < 2 ^ n -> exists t others, subset_qubits n S = t :: others.
Proof.
  intros Hpos Hlt. destruct (subset_qubits n S) as [|t others] eqn:E; [|eauto].
  exfalso. assert (HS : S = 0); [|lia].
  apply Nat.bits_inj_0. intros k.
  destruct (Nat.lt_ge_cases k n) as [Hk|Hk]; [|now apply (testbit_above S n)].
  destruct (Nat.testbit S k) eqn:Ek; [|reflexivity].
  assert (Hin : In k (subset_qubits n S)).
  { apply filter_In. split; [apply in_seq; lia | assumption]. }
  rewrite E in Hin. contradiction.
Qed.

Lemma walsh_blocks_spec n (a : nat -> R) Ss i :
  (forall S, In S Ss -> 0 < S < 2 ^ n) -> i < 2 ^ n ->
  first_error n (flat_map (fun S => walsh_block n S (a S)) Ss) = None
  /\ circuit_act (flat_map (fun S => walsh_block n S (a S)) Ss) i = i
  /\ circuit_phase (flat_map (fun S => walsh_block n S (a S)) Ss) i
     = Cexp_i (Rsum (map (fun S => a S * walsh_sign n S i)%R Ss)).
Proof.
  intros HS Hi. induction Ss as [|S Ss IH]; simpl.
  - split; [reflexivity|]. split; [reflexivity|]. now rewrite Cexp_i_0.
  - destruct IH as [IH1 [IH2 IH3]]; [intros; apply HS; now right|].
    destruct (subset_qubits_nonempty n S) as [t [others E]];
      try (apply HS; now left).
    destruct (walsh_block_spec n S (a S) t others i E Hi) as [B1 [B2 B3]].
    rewrite first_error_app, B1, IH1, circuit_act_app, B2, IH2.
    rewrite circuit_phase_app, B2, B3, IH3.
    split; [reflexivity|]. split; [reflexivity|].
    now rewrite Cexp_i_plus, Cmult_comm.
Qed.

(** ** Real sums and the Walsh basis *)

Lemma Rsum_ext (F G : nat -> R) l :
  (forall k, In k l -> F k = G k) -> Rsum (map F l) = Rsum (map G l).
Proof. intros H. f_equal. now apply map_ext_in. Qed.

Lemma Rsum_app l1 l2 : Rsum (l1 ++ l2) = (Rsum l1 + Rsum l2)%R.
Proof.
  induction l1 as [|x l1 IH]; simpl; [lra|]. rewrite IH. lra.
Qed.

Lemma Rsum_scal r (F : nat -> R) l :
  (r * Rsum (map F l))%R = Rsum (map (fun k => r * F k)%R l).
Proof.
  induction l as [|x l IH]; simpl; [lra|]. rewrite <- IH. lra.
Qed.

Lemma Rsum_plus (F G : nat -> R) l :
  Rsum (map (fun k => F k + G k)%R l)
  = (Rsum (map F l) + Rsum (map G l))%R.
Proof.
  induction l as [|x l IH]; simpl; [lra|]. rewrite IH. lra.
Qed.

Lemma Rsum_zero (F : nat -> R) l :
  (forall k, In k l -> F k = 0%R) -> Rsum (map F l) = 0%R.
Proof.
  induction l as [|x l IH]; simpl; intros H; [reflexivity|].
  rewrite H by now left. rewrite IH by (intros; apply H; now right). lra.
Qed.

Lemma Rsum_exchange (F : nat -> nat -> R) l1 l2 :
  Rsum (map (fun i => Rsum (map (fun j => F i j) l2)) l1)
  = Rsum (map (fun j => Rsum (map (fun i => F i j) l1)) l2).
Proof.
  induction l1 as [|a l1 IH]; simpl.
  - symmetry. now apply Rsum_zero.
  - rewrite IH. symmetry. apply (Rsum_plus (fun j => F a j)).
Qed.

Lemma Rsum_single (F : nat -> R) a s n :
  s <= a < s + n ->
  Rsum (map (fun k => if k =? a then F k else 0%R) (seq s n)) = F a.
Proof.
  revert s. induction n as [|n IH]; intros s H; [lia|]. simpl.
  destruct (s =? a) eqn:E.
  - apply Nat.eqb_eq in E. subst s. rewrite Rsum_zero; [lra|].
    intros k Hk. apply in_seq in Hk.
    now replace (k =? a) with false by (symmetry; apply Nat.eqb_neq; lia).
  - apply Nat.eqb_neq in E. rewrite IH by lia. lra.
Qed.

Lemma Rsum_even_odd (F : nat -> R) N :
  Rsum (map F (seq 0 (2 * N)))
  = Rsum (map (fun s => (F (2 * s)%nat + F (S (2 * s)%nat))%R) (seq 0 N)).
Proof.
  induction N as [|N IH]; [reflexivity|].
  replace (2 * S N) with (S (S (2 * N))) by lia.
  rewrite !seq_S, !map_app, !Rsum_app, IH. simpl. lra.
Qed.

Lemma parity_succ n m :
  parity (S n) m = xorb (Nat.testbit m 0) (parity n (Nat.div2 m)).
Proof.
  unfold parity, xor_bits. cbn [seq map fold_right]. f_equal.
  rewrite <- seq_shift, map_map. reflexivity.
Qed.

Lemma land_div2 s x :
  Nat.div2 (Nat.land s x) = Nat.land (Nat.div2 s) (Nat.div2 x).
Proof.
  apply Nat.bits_inj. intros k. rewrite Nat.land_spec.
  change (Nat.testbit (Nat.div2 (Nat.land s x)) k)
    with (Nat.testbit (Nat.land s x) (S k)).
  now rewrite Nat.land_spec.
Qed.

Lemma walsh_sign_succ n s x :
  walsh_sign (S n) s x
  = ((if Nat.testbit s 0 && Nat.testbit x 0 then -1 else 1)
     * walsh_sign n (Nat.div2 s) (Nat.div2 x))%R.
Proof.
  unfold walsh_sign. rewrite parity_succ, Nat.land_spec, land_div2.
  destruct (Nat.testbit s 0 && Nat.testbit x 0),
           (parity n (Nat.land (Nat.div2 s) (Nat.div2 x))); simpl; lra.
Qed.

Lemma div2_lt_pow2 n x : x < 2 ^ S n -> Nat.div2 x < 2 ^ n.
Proof.
  intros H. rewrite Nat.pow_succ_r' in H.
  pose proof (Nat.div2_odd x) as E. destruct (Nat.odd x); simpl in E; lia.
Qed.

Lemma eq_by_div2 x y :
  x = y <-> Nat.div2 x = Nat.div2 y /\ Nat.testbit x 0 = Nat.testbit y 0.
Proof.
  split; [intros; now subst|]. intros [H1 H2].
  rewrite !Nat.bit0_odd in H2.
  rewrite (Nat.div2_odd x), (Nat.div2_odd y), H1, H2. reflexivity.
Qed.

Lemma walsh_orthogonal n x y :
  x < 2 ^ n -> y < 2 ^ n ->
  Rsum (map (fun s => walsh_sign n s x * walsh_sign n s y)%R (seq 0 (2 ^ n)))
  = if x =? y then (2 ^ n)%R else 0%R.
Proof.
  revert x y. induction n as [|n IH]; intros x y Hx Hy.
  - simpl in Hx, Hy. assert (x = 0) by lia. assert (y = 0) by lia. subst.
    simpl. unfold walsh_sign, parity, xor_bits. simpl. lra.
  - rewrite Nat.pow_succ_r', Rsum_even_odd.
    rewrite Rsum_ext with
      (G := fun s =>
              ((1 + (if Nat.testbit x 0 then -1 else 1)
                    * (if Nat.testbit y 0 then -1 else 1))
               * (walsh_sign n s (Nat.div2 x)
                  * walsh_sign n s (Nat.div2 y)))%R).
    + rewrite <- Rsum_scal, IH by now apply div2_lt_pow2.
      pose proof (eq_by_div2 x y) as Heq.
      destruct (x =? y) eqn:Exy.
      * apply Nat.eqb_eq in Exy. apply Heq in Exy. destruct Exy as [E1 E2].
        rewrite E1, E2, Nat.eqb_refl.
        destruct (Nat.testbit y 0); simpl; lra.
      * apply Nat.eqb_neq in Exy.
        destruct (Nat.div2 x =? Nat.div2 y) eqn:Ed; [|lra].
        apply Nat.eqb_eq in Ed.
        destruct (Nat.testbit x 0) eqn:Ex, (Nat.testbit y 0) eqn:Ey;
          try lra; exfalso; apply Exy, Heq; split; congruence.
    + intros s _. rewrite !walsh_sign_succ.
      rewrite Nat.testbit_even_0, Nat.div2_double.
      replace (Nat.testbit (S (2 * s)) 0) with true
        by (symmetry; replace (S (2 * s)) with (2 * s + 1) by lia;
            apply Nat.testbit_odd_0).
      rewrite Nat.div2_succ_double. cbn [andb].
      destruct (Nat.testbit x 0), (Nat.testbit y 0); lra.
Qed.

Lemma pow2_R_pos n : (0 < 2 ^ n)%R.
Proof. apply pow_lt. lra. Qed.

(** The Walsh expansion recovers every phase angle. *)
Lemma walsh_inversion n phases x :
  x < 2 ^ n ->
  Rsum (map (fun s => walsh_coefficient n phases s * walsh_sign n s x)%R
            (seq 0 (2 ^ n)))
  = nth x phases 0%R.
Proof.
  intros Hx. pose proof (pow2_R_pos n) as Hp. unfold walsh_coefficient.
  rewrite Rsum_ext with
    (G := fun s =>
            Rsum (map (fun y => (nth y phases 0 / 2 ^ n
                                 * (walsh_sign n s x * walsh_sign n s y))%R)
                      (seq 0 (2 ^ n)))).
  - rewrite Rsum_exchange.
    rewrite Rsum_ext with
      (G := fun y => if y =? x then nth y phases 0%R else 0%R).
    + apply Rsum_single. lia.
    + intros y Hy. apply in_seq in Hy.
      rewrite <- Rsum_scal, walsh_orthogonal by lia.
      rewrite (Nat.eqb_sym y x). destruct (x =? y); [field; lra | lra].
  - intros s _.
    transitivity
      ((walsh_sign n s x / 2 ^ n)
       * Rsum (map (fun y => walsh_sign n s y * nth y phases 0)
                   (seq 0 (2 ^ n))))%R; [field; lra|].
    rewrite Rsum_scal. apply Rsum_ext. intros y _. field. lra.
Qed.

Lemma Cmod_1_sq z : Cmod z = 1%R -> (fst z * fst z + snd z * snd z = 1)%R.
Proof.
  unfold Cmod. intros H.
  rewrite <- (sqrt_sqrt (fst z * fst z + snd z * snd z)) by nra.
  rewrite H. lra.
Qed.

(** On the unit circle the phase angle gives the number back. *)
Lemma Cexp_i_Carg z : Cmod z = 1%R -> Cexp_i (Carg z) = z.
Proof.
  intros H. pose proof (Cmod_1_sq z H) as Hsq.
  unfold Carg. rewrite H. destruct z as [x y]. simpl in *.
  replace (x / 1)%R with x by lra.
  assert (Hx : (-1 <= x <= 1)%R) by nra.
  unfold Cexp_i. destruct (Rle_dec 0 y) as [Hy|Hy].
  - rewrite cos_acos, sin_acos by assumption. f_equal.
    replace (1 - x²)%R with (y * y)%R by (unfold Rsqr; lra).
    now apply sqrt_square.
  - rewrite cos_neg, sin_neg, cos_acos, sin_acos by assumption. f_equal.
    replace (1 - x²)%R with ((- y) * (- y))%R by (unfold Rsqr; lra).
    rewrite sqrt_square by lra. lra.
Qed.

(** ** What the synthesized circuit evaluates to *)

Lemma parity_0 n : parity n 0 = false.
Proof.
  unfold parity, xor_bits. induction (seq 0 n) as [|k l IH]; simpl; auto.
  now rewrite Nat.bits_0, IH.
Qed.

Lemma walsh_sign_0 n x : walsh_sign n 0 x = 1%R.
Proof. unfold walsh_sign. now rewrite Nat.land_0_l, parity_0. Qed.

Lemma walsh_sum_without_global n phases x :
  x < 2 ^ n ->
  Rsum (map (fun S => walsh_coefficient n phases S * walsh_sign n S x)%R
            (seq 1 (2 ^ n - 1)))
  = (nth x phases 0 - walsh_coefficient n phases 0)%R.
Proof.
  intros Hx. rewrite <- (walsh_inversion n phases x Hx).
  rewrite seq_pow2_head. simpl. rewrite walsh_sign_0. lra.
Qed.

Lemma diag_phases_nth n d x :
  x < 2 ^ n ->
  nth x (diag_phases
           (tabulate (2 ^ n) (2 ^ n) (fun r c => if r =? c then d c else C0)))
      0%R
  = Carg (d x).
Proof.
  intros Hx. unfold diag_phases. rewrite length_tabulate.
  rewrite nth_map_seq by assumption.
  now rewrite mget_tabulate, Nat.eqb_refl by assumption.
Qed.

Lemma diagonal_unitary_tabulate n D :
  diagonal_unitary n D ->
  exists d : nat -> C,
    D = tabulate (2 ^ n) (2 ^ n) (fun r c => if r =? c then d c else C0)
    /\ forall x, x < 2 ^ n -> Cmod (d x) = 1%R.
Proof.
  intros [Hs [Hoff Hdiag]]. exists (fun c => mget D c c). split; [|exact Hdiag].
  rewrite (has_shape_tabulate (2 ^ n) (2 ^ n) D Hs) at 1.
  apply tabulate_ext. intros r c Hr Hc.
  destruct (r =? c) eqn:E.
  - apply Nat.eqb_eq in E. now subst r.
  - apply Nat.eqb_neq in E. now apply Hoff.
Qed.

Lemma walsh_circuit_evaluates n D :
  diagonal_unitary n D ->
  gates_to_matrix (build_optimal_walsh_circuit D) n
  = Ok (tabulate (2 ^ n) (2 ^ n)
          (fun r c => Cmult (Cexp_i (- global_phase D)) (mget D r c))).
Proof.
  intros HD. apply diagonal_unitary_tabulate in HD.
  destruct HD as [d [ED Hd]].
  assert (Hlen : length D = 2 ^ n) by (rewrite ED; apply length_tabulate).
  assert (Hget : forall r c, r < 2 ^ n -> c < 2 ^ n ->
                             mget D r c = if r =? c then d c else C0)
    by (intros; rewrite ED; now apply mget_tabulate).
  assert (Hnth : forall x, x < 2 ^ n ->
                           nth x (diag_phases D) 0%R = Carg (d x))
    by (intros; rewrite ED; now apply diag_phases_nth).
  unfold build_optimal_walsh_circuit, global_phase.
  rewrite Hlen, Nat.log2_pow2 by lia. cbv zeta.
  set (a := walsh_coefficient n (diag_phases D)).
  assert (HS : forall S, In S (seq 1 (2 ^ n - 1)) -> 0 < S < 2 ^ n)
    by (intros S HS; apply in_seq in HS; lia).
  rewrite gates_to_matrix_spec.
  destruct (walsh_blocks_spec n a (seq 1 (2 ^ n - 1)) 0 HS (pow2_pos n))
    as [He _].
  rewrite He. f_equal. unfold mono. apply tabulate_ext. intros r c Hr Hc.
  destruct (walsh_blocks_spec n a (seq 1 (2 ^ n - 1)) c HS Hc)
    as [_ [Hact Hph]].
  rewrite Hact, Hph. unfold a.
  rewrite walsh_sum_without_global by assumption.
  rewrite Hget, Hnth by assumption.
  destruct (r =? c); [|now rewrite Cmult_0_r].
  replace (Carg (d c) - walsh_coefficient n (diag_phases D) 0)%R
    with (- walsh_coefficient n (diag_phases D) 0 + Carg (d c))%R by lra.
  rewrite Cexp_i_plus, Cexp_i_Carg by now apply Hd.
  reflexivity.
Qed.

Lemma pauli_z_diagonal_unitary :
  diagonal_unitary 1 [[C1; C0]; [C0; ((-1)%R, 0%R)]].
Proof.
  split; [|split].
  - split; [reflexivity | repeat constructor].
  - intros r c Hr Hc Hne. simpl in Hr, Hc.
    destruct r as [|[|r]], c as [|[|c]]; try lia; reflexivity.
  - intros x Hx. simpl in Hx. destruct x as [|[|x]]; try lia.
    + apply Cmod_1.
    + apply Cmod_eq; simpl; lra.
Qed.

Lemma pauli_z_global_phase :
  global_phase [[C1; C0]; [C0; ((-1)%R, 0%R)]] = (PI / 2)%R.
Proof.
  unfold global_phase, walsh_coefficient, diag_phases. simpl.
  unfold mget. simpl. rewrite !walsh_sign_0.
  unfold Carg. simpl.
  destruct (Rle_dec 0 0) as [_|H]; [|lra].
  rewrite Cmod_1. rewrite (Cmod_eq ((-1)%R, 0%R) 1) by (simpl; lra).
  replace (1 / 1)%R with 1%R by lra.
  replace (-1 / 1)%R with (- (1))%R by lra.
  rewrite acos_opp, acos_1. lra.
Qed.

(** The boundary case of the synthesizer: on one qubit the circuit is a
    single phase rotation and no CNOT. *)
Lemma walsh_circuit_one_qubit D :
  length D = 2 ->
  build_optimal_walsh_circuit D
  = [RZ (2 * walsh_coefficient 1 (diag_phases D) 1) 0].
Proof.
  intros H. unfold build_optimal_walsh_circuit. rewrite H. reflexivity.
Qed.

(** On one qubit the evaluator's gate set cannot produce [diag(1, -1)] at
    all: every accepted gate is an RZ on qubit 0, and the two diagonal
    entries of the evaluated matrix multiply to 1. *)
Lemma one_qubit_phases c :
  circuit_ok 1 c = true ->
  (forall i, circuit_act c i = i)
  /\ Cmult (circuit_phase c 0) (circuit_phase c 1) = C1.
Proof.
  induction c as [|g c IH]; simpl; intros H.
  - split; [reflexivity | apply Cmult_1_l].
  - apply andb_true_iff in H. destruct H as [Hg Hc].
    destruct (IH Hc) as [IHa IHp].
    destruct g as [control target | angle qubit]; simpl in Hg;
      unfold qubit_ok in Hg.
    + exfalso.
      apply andb_true_iff in Hg. destruct Hg as [Hg Hd].
      apply andb_true_iff in Hg. destruct Hg as [H1 H2].
      apply andb_true_iff in H1, H2. destruct H1 as [H1 H1'], H2 as [H2 H2'].
      apply Z.leb_le in H1, H2. apply Z.ltb_lt in H1', H2'.
      apply negb_true_iff, Z.eqb_neq in Hd. lia.
    + apply andb_true_iff in Hg. destruct Hg as [H1 H1'].
      apply Z.leb_le in H1. apply Z.ltb_lt in H1'.
      assert (qubit = 0%Z) by lia. subst qubit. simpl.
      split; [exact IHa|]. unfold rz_phase. simpl.
      rewrite Cmult_pairs, IHp, <- Cexp_i_plus.
      replace (angle / 2 + - (angle / 2))%R with 0%R by lra.
      rewrite Cexp_i_0. apply Cmult_1_l.
Qed.

Lemma one_qubit_circuit_misses_pauli_z c :
  circuit_ok 1 c = true ->
  gates_to_matrix c 1 <> Ok [[C1; C0]; [C0; ((-1)%R, 0%R)]].
Proof.
  intros H. destruct (one_qubit_phases c H) as [Ha Hp].
  destruct (circuit_ok_accepted 1 c H) as [_ He].
  rewrite gates_to_matrix_spec, He. intros E.
  injection E as E00 E01 E10 E11.
  rewrite Ha in E00, E11. simpl in E00, E11. rewrite E00, E11 in Hp.
  unfold Cmult, C1 in Hp. simpl in Hp. inversion Hp. lra.
Qed.

(** ** Reconstruction of a diagonal unitary *)

(** C6, counterexample to the claim as stated: for the diagonal unitary
    [diag(1, -1)] on one qubit the synthesized circuit evaluates to
    [diag(-i, i)]; the maximum absolute difference to the input is
    [sqrt 2], so the driver does not accept the reconstruction. *)
Lemma walsh_circuit_drops_global_phase :
  diagonal_unitary 1 [[C1; C0]; [C0; ((-1)%R, 0%R)]]
  /\ gates_to_matrix
       (build_optimal_walsh_circuit [[C1; C0]; [C0; ((-1)%R, 0%R)]]) 1
     = Ok [[(0%R, (-1)%R); C0]; [C0; (0%R, 1%R)]]
  /\ difference [[C1; C0]; [C0; ((-1)%R, 0%R)]]
                [[(0%R, (-1)%R); C0]; [C0; (0%R, 1%R)]]
     = Ok (sqrt 2)
  /\ (1 < sqrt 2)%R
  /\ is_accurate [[C1; C0]; [C0; ((-1)%R, 0%R)]]
                 [[(0%R, (-1)%R); C0]; [C0; (0%R, 1%R)]]
     = Ok false.
Proof.
  assert (Hs : (1 < sqrt 2)%R)
    by (rewrite <- sqrt_1 at 1; apply sqrt_lt_1; lra).
  assert (Ed : difference [[C1; C0]; [C0; ((-1)%R, 0%R)]]
                          [[(0%R, (-1)%R); C0]; [C0; (0%R, 1%R)]]
               = Ok (sqrt 2)).
  { unfold difference, mat_sub, np_max, np_abs. simpl.
    unfold mget. simpl. f_equal.
    assert (E1 : Cmod (Cminus C1 (0%R, (-1)%R)) = sqrt 2)
      by (unfold Cmod; simpl; f_equal; lra).
    assert (E2 : Cmod (Cminus C0 C0) = 0%R)
      by (rewrite Cminus_diag; apply Cmod_0).
    assert (E3 : Cmod (Cminus ((-1)%R, 0%R) (0%R, 1%R)) = sqrt 2)
      by (unfold Cmod; simpl; f_equal; lra).
    rewrite E1, E2, E3.
    unfold Rmax. repeat (destruct (Rle_dec _ _); try lra). }
  split; [apply pauli_z_diagonal_unitary|]. split; [|split; [|split]].
  - rewrite walsh_circuit_evaluates by apply pauli_z_diagonal_unitary.
    rewrite pauli_z_global_phase. f_equal.
    unfold tabulate, mget. simpl. unfold Cexp_i.
    rewrite cos_neg, sin_neg, cos_PI2, sin_PI2.
    repeat f_equal; csolve.
  - exact Ed.
  - exact Hs.
  - unfold is_accurate. rewrite Ed. cbn [bind].
    destruct (Rlt_dec (sqrt 2) (1 / 10 ^ 6)) as [H|H]; [|reflexivity].
    exfalso. assert (1 / 10 ^ 6 < 1)%R by lra. lra.
Qed.

(** C6, as the spec has the synthesizer: for every diagonal unitary [D] of
    dimension [2^n], the synthesized circuit evaluates to [D] up to the
    dropped global phase: every entry is the entry of [D] times the unit
    number [e^{-i g}], with [g] the Walsh coefficient of the empty
    subset. *)
Theorem walsh_circuit_up_to_global_phase (n : nat) (D : matrix) :
  diagonal_unitary n D ->
  exists M,
    gates_to_matrix (build_optimal_walsh_circuit D) n = Ok M
    /\ has_shape (2 ^ n) (2 ^ n) M
    /\ (forall r c, r < 2 ^ n -> c < 2 ^ n ->
          mget M r c = Cmult (Cexp_i (- global_phase D)) (mget D r c))
    /\ Cmod (Cexp_i (- global_phase D)) = 1%R.
Proof.
  intros H. eexists. split; [now apply walsh_circuit_evaluates|].
  split; [apply tabulate_has_shape|]. split; [|apply Cexp_i_mod].
  intros r c Hr Hc. now rewrite mget_tabulate.
Qed.

Lemma walsh_circuit_up_to_global_phase_witness :
  exists M,
    gates_to_matrix
      (build_optimal_walsh_circuit [[C1; C0]; [C0; ((-1)%R, 0%R)]]) 1 = Ok M
    /\ has_shape (2 ^ 1) (2 ^ 1) M
    /\ (forall r c, r < 2 ^ 1 -> c < 2 ^ 1 ->
          mget M r c
          = Cmult (Cexp_i (- global_phase [[C1; C0]; [C0; ((-1)%R, 0%R)]]))
                  (mget [[C1; C0]; [C0; ((-1)%R, 0%R)]] r c))
    /\ Cmod (Cexp_i (- global_phase [[C1; C0]; [C0; ((-1)%R, 0%R)]])) = 1%R.
Proof.
  apply (walsh_circuit_up_to_global_phase 1 [[C1; C0]; [C0; ((-1)%R, 0%R)]]).
  apply pauli_z_diagonal_unitary.
Defined.

(** * Further properties of the evaluator and of the driver *)

(** ** Concatenation of circuits *)

Lemma gates_to_matrix_app c1 c2 n :
  gates_to_matrix (c1 ++ c2) n
  = (M1 <- gates_to_matrix c1 n ;;
     M2 <- gates_to_matrix c2 n ;;
     Ok (matmul M2 M1)).
Proof.
  rewrite !gates_to_matrix_spec, first_error_app.
  destruct (first_error n c1) eqn:E1; simpl; [reflexivity|].
  destruct (first_error n c2) eqn:E2; simpl; [reflexivity|].
  rewrite matmul_mono by (intros; now apply circuit_act_lt).
  f_equal. apply mono_ext; intros i Hi.
  - apply circuit_act_app.
  - apply circuit_phase_app.
Qed.

(** X1: the evaluator turns concatenation of circuits into the matrix
    product, the later circuit on the left; when a gate raises, the two
    sides raise the same exception. *)
Theorem concatenation_is_product (c1 c2 : circuit) (n : nat) :
  gates_to_matrix (c1 ++ c2) n
  = (M1 <- gates_to_matrix c1 n ;;
     M2 <- gates_to_matrix c2 n ;;
     Ok (matmul M2 M1)).
Proof. apply gates_to_matrix_app. Qed.

Lemma gates_to_matrix_congruence pre mid1 mid2 post n :
  gates_to_matrix mid1 n = gates_to_matrix mid2 n ->
  gates_to_matrix (pre ++ mid1 ++ post) n
  = gates_to_matrix (pre ++ mid2 ++ post) n.
Proof.
  intros H. rewrite !gates_to_matrix_app, H. reflexivity.
Qed.

(** X2: a sub-circuit can be replaced by any circuit with the same matrix
    (or the same exception) without changing what the evaluator returns
    on the whole circuit. *)
Theorem subcircuit_replacement (pre mid1 mid2 post : circuit) (n : nat) :
  gates_to_matrix mid1 n = gates_to_matrix mid2 n ->
  gates_to_matrix (pre ++ mid1 ++ post) n
  = gates_to_matrix (pre ++ mid2 ++ post) n.
Proof. apply gates_to_matrix_congruence. Qed.

Lemma subcircuit_replacement_witness :
  gates_to_matrix ([CNOT 0 1] ++ [RZ 0 1] ++ [RZ PI 0]) 2
  = gates_to_matrix ([CNOT 0 1] ++ [] ++ [RZ PI 0]) 2.
Proof.
  apply (subcircuit_replacement [CNOT 0 1] [RZ 0 1] [] [RZ PI 0] 2).
  rewrite !gates_to_matrix_spec. simpl. f_equal.
  apply mono_ext; intros i Hi; [reflexivity|]. simpl. unfold rz_phase.
  replace (0 / 2)%R with 0%R by lra. rewrite Ropp_0, Cexp_i_0.
  destruct (Nat.testbit i _); apply Cmult_1_l.
Defined.

(** ** Shape of the matrices the evaluator returns *)

Lemma Cmod_unit w : Cmult w (Cconj w) = C1 -> Cmod w = 1%R.
Proof.
  intros H. apply (f_equal fst) in H. unfold Cmult, Cconj, C1 in H.
  simpl in H. apply Cmod_eq; lra.
Qed.

Lemma circuit_phase_mod c i : Cmod (circuit_phase c i) = 1%R.
Proof. apply Cmod_unit, circuit_phase_unit. Qed.

Lemma gates_to_matrix_Ok c n M :
  gates_to_matrix c n = Ok M ->
  first_error n c = None
  /\ M = mono (2 ^ n) (circuit_act c) (circuit_phase c).
Proof.
  rewrite gates_to_matrix_spec. destruct (first_error n c); [discriminate|].
  intros H. injection H as H. auto.
Qed.

(** X3: every matrix the evaluator returns is [2^n x 2^n] and has exactly
    one non-zero entry in each column, of modulus 1: a basis state is sent
    to a basis state times a phase, also when a CNOT has its control equal
    to its target. *)
Theorem evaluated_matrix_is_monomial (c : circuit) (n : nat) (M : matrix) :
  gates_to_matrix c n = Ok M ->
  has_shape (2 ^ n) (2 ^ n) M
  /\ forall col, col < 2 ^ n ->
       exists row,
         row < 2 ^ n
         /\ Cmod (mget M row col) = 1%R
         /\ (forall r, r < 2 ^ n -> r <> row -> mget M r col = C0)
         /\ matvec M (basis_state (2 ^ n) col)
            = map (fun r => if r =? row then mget M row col else C0)
                  (seq 0 (2 ^ n)).
Proof.
  intros H. apply gates_to_matrix_Ok in H. destruct H as [He HM]. subst M.
  split; [apply tabulate_has_shape|]. intros col Hc.
  assert (Hrow : circuit_act c col < 2 ^ n) by now apply circuit_act_lt.
  exists (circuit_act c col). split; [assumption|].
  rewrite mget_mono, Nat.eqb_refl by assumption.
  split; [apply circuit_phase_mod|]. split.
  - intros r Hr Hne. rewrite mget_mono by assumption.
    now replace (r =? circuit_act c col) with false
      by (symmetry; apply Nat.eqb_neq; lia).
  - now apply matvec_mono_basis.
Qed.

Lemma evaluated_matrix_is_monomial_witness :
  has_shape (2 ^ 1) (2 ^ 1) [[C1; C1]; [C0; C0]]
  /\ forall col, col < 2 ^ 1 ->
       exists row,
         row < 2 ^ 1
         /\ Cmod (mget [[C1; C1]; [C0; C0]] row col) = 1%R
         /\ (forall r, r < 2 ^ 1 -> r <> row ->
               mget [[C1; C1]; [C0; C0]] r col = C0)
         /\ matvec [[C1; C1]; [C0; C0]] (basis_state (2 ^ 1) col)
            = map (fun r => if r =? row
                            then mget [[C1; C1]; [C0; C0]] row col else C0)
                  (seq 0 (2 ^ 1)).
Proof.
  apply (evaluated_matrix_is_monomial [CNOT 0 0] 1).
  rewrite gates_to_matrix_spec. simpl. f_equal.
  unfold mono, tabulate. simpl. now rewrite Cmult_1_l.
Defined.

(** ** When the evaluator raises *)

Lemma gate_error_None n g : gate_error n g = None <-> gate_accepted n g.
Proof.
  destruct g as [control target | angle qubit]; simpl.
  - destruct (control <? 0)%Z eqn:E1.
    { apply Z.ltb_lt in E1. split; [discriminate | intros [H _]; lia]. }
    apply Z.ltb_ge in E1.
    destruct (Z.of_nat n <=? control)%Z eqn:E2.
    { apply Z.leb_le in E2. split; [|reflexivity].
      intros _. split; [assumption | lia]. }
    apply Z.leb_gt in E2.
    destruct (target <? 0)%Z eqn:E3.
    { apply Z.ltb_lt in E3. split; [discriminate | intros [_ H]; lia]. }
    apply Z.ltb_ge in E3.
    destruct (Z.of_nat n <=? target)%Z eqn:E4.
    { apply Z.leb_le in E4. split; [discriminate | intros [_ H]; lia]. }
    apply Z.leb_gt in E4. split; [|reflexivity].
    intros _. split; [assumption | lia].
  - destruct (qubit <? 0)%Z eqn:E1.
    + apply Z.ltb_lt in E1. split; [discriminate | lia].
    + apply Z.ltb_ge in E1. split; auto.
Qed.

(** X4: the evaluator returns a matrix exactly when every gate is an RZ
    with a non-negative qubit, or a CNOT with a non-negative control whose
    target is in [0, n) whenever the control is below [n]; otherwise it
    raises. *)
Theorem evaluator_returns_iff (c : circuit) (n : nat) :
  (exists M, gates_to_matrix c n = Ok M) <-> Forall (gate_accepted n) c.
Proof.
  rewrite gates_to_matrix_spec. split.
  - intros [M H]. destruct (first_error n c) eqn:E; [discriminate|].
    apply first_error_None in E. eapply Forall_impl; [|exact E].
    intros g Hg. now apply gate_error_None.
  - intros H.
    assert (E : first_error n c = None).
    { apply first_error_None. eapply Forall_impl; [|exact H].
      intros g Hg. now apply gate_error_None. }
    rewrite E. eauto.
Qed.

(** ** Rewriting circuits without changing the matrix *)

Lemma rz_phase_plus a b q i :
  rz_phase (a + b) q i = Cmult (rz_phase b q i) (rz_phase a q i).
Proof.
  unfold rz_phase. destruct (Nat.testbit i q); rewrite <- Cexp_i_plus;
    f_equal; lra.
Qed.

Lemma rz_pair_merge a b q n :
  gates_to_matrix [RZ a q; RZ b q] n = gates_to_matrix [RZ (a + b) q] n.
Proof.
  rewrite !gates_to_matrix_spec. simpl.
  destruct (q <? 0)%Z; [reflexivity|]. f_equal.
  apply mono_ext; intros i Hi; [reflexivity|].
  simpl. now rewrite rz_phase_plus, !Cmult_1_l.
Qed.

(** X5: two consecutive rotations of one qubit can be merged into one
    rotation by the sum of the angles, anywhere in a circuit, without
    changing what the evaluator returns. *)
Theorem rz_merge (pre post : circuit) (a b : R) (q : Z) (n : nat) :
  gates_to_matrix (pre ++ [RZ a q; RZ b q] ++ post) n
  = gates_to_matrix (pre ++ [RZ (a + b) q] ++ post) n.
Proof. apply gates_to_matrix_congruence, rz_pair_merge. Qed.

Lemma rz_pair_commute a b q q' n :
  gates_to_matrix [RZ a q; RZ b q'] n = gates_to_matrix [RZ b q'; RZ a q] n.
Proof.
  rewrite !gates_to_matrix_spec. simpl.
  destruct (q <? 0)%Z, (q' <? 0)%Z; try reflexivity.
  f_equal. apply mono_ext; intros i Hi; [reflexivity|].
  simpl. rewrite !Cmult_1_l. apply Cmult_comm.
Qed.

(** X6: two consecutive rotations commute, on any qubits and anywhere in a
    circuit. *)
Theorem rz_commute (pre post : circuit) (a b : R) (q q' : Z) (n : nat) :
  gates_to_matrix (pre ++ [RZ a q; RZ b q'] ++ post) n
  = gates_to_matrix (pre ++ [RZ b q'; RZ a q] ++ post) n.
Proof. apply gates_to_matrix_congruence, rz_pair_commute. Qed.

Lemma gate_ok_accepted n g :
  gate_ok n g = true -> gate_error n g = None /\ cnot_distinct g = true.
Proof.
  intros H. destruct (circuit_ok_accepted n [g]) as [H1 H2].
  - simpl. now rewrite H.
  - simpl in H1, H2. rewrite andb_true_r in H1.
    destruct (gate_error n g); [discriminate | auto].
Qed.

Lemma cnot_pair_cancel control target n :
  gate_ok n (CNOT control target) = true ->
  gates_to_matrix [CNOT control target; CNOT control target] n
  = gates_to_matrix [] n.
Proof.
  intros H. destruct (gate_ok_accepted n _ H) as [He Hd].
  rewrite !gates_to_matrix_spec. cbn [first_error]. rewrite He.
  f_equal. apply mono_ext; intros i Hi.
  - cbn [circuit_act]. now apply (gate_act_involutive n).
  - simpl. now rewrite !Cmult_1_l.
Qed.

(** X7: CNOT is its own inverse: two consecutive equal CNOT gates, with
    distinct control and target in [0, n), can be removed anywhere in a
    circuit without changing what the evaluator returns. *)
Theorem cnot_cancel (pre post : circuit) (control target : Z) (n : nat) :
  gate_ok n (CNOT control target) = true ->
  gates_to_matrix (pre ++ [CNOT control target; CNOT control target] ++ post) n
  = gates_to_matrix (pre ++ post) n.
Proof.
  intros H.
  change (pre ++ post) with (pre ++ [] ++ post).
  now apply gates_to_matrix_congruence, cnot_pair_cancel.
Qed.

Lemma cnot_cancel_witness :
  gates_to_matrix ([RZ PI 0] ++ [CNOT 0 1; CNOT 0 1] ++ [RZ 1 1]) 2
  = gates_to_matrix ([RZ PI 0] ++ [RZ 1 1]) 2.
Proof.
  apply (cnot_cancel [RZ PI 0] [RZ 1 1] 0 1 2). reflexivity.
Defined.

Lemma rz_phase_cnot_act a q control target i :
  q <> target ->
  rz_phase a q (cnot_act control target i) = rz_phase a q i.
Proof.
  intros H. unfold rz_phase. rewrite testbit_cnot_act.
  replace (target =? q) with false by (symmetry; apply Nat.eqb_neq; lia).
  now rewrite andb_false_r, xorb_false_r.
Qed.

Lemma rz_cnot_pair_commute a q control target n :
  (0 <= q)%Z -> q <> target ->
  gates_to_matrix [CNOT control target; RZ a q] n
  = gates_to_matrix [RZ a q; CNOT control target] n.
Proof.
  intros Hq Hne. rewrite !gates_to_matrix_spec. cbn [first_error].
  assert (Eq : gate_error n (RZ a q) = None) by (simpl; now cmp).
  rewrite Eq.
  destruct (gate_error n (CNOT control target)) eqn:Ec; [reflexivity|].
  f_equal. apply mono_ext; intros i Hi; [reflexivity|].
  simpl. rewrite !Cmult_1_l, Cmult_1_r.
  apply gate_error_None in Ec. destruct Ec as [Hc Ht].
  destruct (Z.lt_ge_cases control (Z.of_nat n)) as [Hlt|Hge].
  - apply rz_phase_cnot_act. specialize (Ht Hlt). lia.
  - now rewrite (cnot_act_control_above _ _ n) by lia.
Qed.

(** X8: a rotation commutes with a CNOT when its qubit is not the CNOT's
    target (it may be the control), anywhere in a circuit. *)
Theorem rz_cnot_commute (pre post : circuit) (a : R) (q control target : Z)
  (n : nat) :
  (0 <= q)%Z -> q <> target ->
  gates_to_matrix (pre ++ [CNOT control target; RZ a q] ++ post) n
  = gates_to_matrix (pre ++ [RZ a q; CNOT control target] ++ post) n.
Proof.
  intros Hq Hne. now apply gates_to_matrix_congruence, rz_cnot_pair_commute.
Qed.

Lemma rz_cnot_commute_witness :
  gates_to_matrix ([] ++ [CNOT 0 1; RZ PI 0] ++ [RZ 1 1]) 2
  = gates_to_matrix ([] ++ [RZ PI 0; CNOT 0 1] ++ [RZ 1 1]) 2.
Proof.
  apply (rz_cnot_commute [] [RZ 1 1] PI 0 0 1 2); lia.
Defined.

Lemma Cexp_i_2PI x : Cexp_i (x + 2 * PI) = Cexp_i x.
Proof.
  rewrite Cexp_i_plus. unfold Cexp_i at 2. rewrite cos_2PI, sin_2PI.
  apply Cmult_1_r.
Qed.

Lemma rz_phase_4PI a q i : rz_phase (a + 4 * PI) q i = rz_phase a q i.
Proof.
  unfold rz_phase. destruct (Nat.testbit i q).
  - rewrite <- (Cexp_i_2PI (- ((a + 4 * PI) / 2))). f_equal. lra.
  - rewrite <- (Cexp_i_2PI (a / 2)). f_equal. lra.
Qed.

Lemma rz_single_4PI a q n :
  gates_to_matrix [RZ (a + 4 * PI) q] n = gates_to_matrix [RZ a q] n.
Proof.
  rewrite !gates_to_matrix_spec. simpl.
  destruct (q <? 0)%Z; [reflexivity|]. f_equal.
  apply mono_ext; intros i Hi; [reflexivity|]. simpl.
  now rewrite rz_phase_4PI.
Qed.

(** X9: the evaluator depends on a rotation angle only modulo [4 π]. *)
Theorem rz_angle_period (pre post : circuit) (a : R) (q : Z) (n : nat) :
  gates_to_matrix (pre ++ [RZ (a + 4 * PI) q] ++ post) n
  = gates_to_matrix (pre ++ [RZ a q] ++ post) n.
Proof. apply gates_to_matrix_congruence, rz_single_4PI. Qed.

(** ** The inverse circuit *)

Lemma negate_gate_involutive g : negate_gate (negate_gate g) = g.
Proof. destruct g; simpl; [reflexivity|]. now rewrite Ropp_involutive. Qed.

Lemma V_dagger_twice c : V_dagger_circuit (V_dagger_circuit c) = c.
Proof.
  unfold V_dagger_circuit. rewrite <- map_rev, rev_involutive, map_map.
  rewrite <- (map_id c) at 2. apply map_ext, negate_gate_involutive.
Qed.

(** X10: inverting a circuit twice gives the circuit back, and the
    inverse circuit has as many gates as the circuit. *)
Theorem V_dagger_involutive (c : circuit) :
  V_dagger_circuit (V_dagger_circuit c) = c
  /\ length (V_dagger_circuit c) = length c.
Proof.
  split; [apply V_dagger_twice|].
  unfold V_dagger_circuit. now rewrite length_map, length_rev.
Qed.

Lemma accepted_first_error n c :
  Forall (gate_accepted n) c <-> first_error n c = None.
Proof.
  rewrite first_error_None. split; intros H; (eapply Forall_impl; [|exact H]);
    intros g Hg; now apply gate_error_None.
Qed.

Lemma cnot_distinct_V_dagger c :
  forallb cnot_distinct c = true ->
  forallb cnot_distinct (V_dagger_circuit c) = true.
Proof.
  rewrite !forallb_forall. intros H g Hg. unfold V_dagger_circuit in Hg.
  apply in_map_iff in Hg. destruct Hg as [g0 [Eg Hin]]. subst g.
  apply in_rev in Hin. specialize (H g0 Hin). now destruct g0.
Qed.

Lemma evaluated_unitary n c :
  forallb cnot_distinct c = true -> first_error n c = None ->
  matmul (mono (2 ^ n) (circuit_act c) (circuit_phase c))
         (dagger (mono (2 ^ n) (circuit_act c) (circuit_phase c)))
  = np_eye (2 ^ n)
  /\ matmul (dagger (mono (2 ^ n) (circuit_act c) (circuit_phase c)))
            (mono (2 ^ n) (circuit_act c) (circuit_phase c))
     = np_eye (2 ^ n).
Proof.
  intros Hd He.
  assert (ED : dagger (mono (2 ^ n) (circuit_act c) (circuit_phase c))
               = mono (2 ^ n) (circuit_act (V_dagger_circuit c))
                      (circuit_phase (V_dagger_circuit c))).
  { apply dagger_mono; intros i Hi.
    - now apply (act_V_dagger_left n).
    - now apply (act_V_dagger_right n).
    - now apply (phase_V_dagger n). }
  rewrite ED. split.
  - rewrite matmul_mono
      by (intros; apply circuit_act_lt; auto using first_error_V_dagger).
    rewrite eye_mono. apply mono_ext; intros i Hi.
    + now apply (act_V_dagger_right n).
    + rewrite (phase_V_dagger n) by assumption. apply circuit_phase_unit.
  - rewrite matmul_mono by (intros; apply circuit_act_lt; auto).
    rewrite eye_mono. apply mono_ext; intros i Hi.
    + now apply (act_V_dagger_left n).
    + rewrite (phase_V_dagger n) by (auto; apply circuit_act_lt; auto).
      rewrite (act_V_dagger_left n) by assumption.
      rewrite Cmult_comm. apply circuit_phase_unit.
Qed.

(** X11: a circuit followed by its inverse circuit, and the inverse
    circuit followed by the circuit, evaluate to the identity matrix, for
    qubit indices in [0, n) and CNOT controls distinct from targets. *)
Theorem circuit_then_inverse (c : circuit) (n : nat) :
  circuit_ok n c = true ->
  gates_to_matrix (c ++ V_dagger_circuit c) n = Ok (np_eye (2 ^ n))
  /\ gates_to_matrix (V_dagger_circuit c ++ c) n = Ok (np_eye (2 ^ n)).
Proof.
  intros H. apply circuit_ok_accepted in H. destruct H as [Hd He].
  destruct (evaluated_unitary n c Hd He) as [U1 U2].
  rewrite !gates_to_matrix_app, gates_to_matrix_V_dagger by assumption.
  rewrite gates_to_matrix_spec, He. simpl. now rewrite U1, U2.
Qed.

Lemma circuit_then_inverse_witness :
  gates_to_matrix
    ([CNOT 0 1; RZ PI 1] ++ V_dagger_circuit [CNOT 0 1; RZ PI 1]) 2
  = Ok (np_eye (2 ^ 2))
  /\ gates_to_matrix
       (V_dagger_circuit [CNOT 0 1; RZ PI 1] ++ [CNOT 0 1; RZ PI 1]) 2
     = Ok (np_eye (2 ^ 2)).
Proof.
  apply (circuit_then_inverse [CNOT 0 1; RZ PI 1] 2). reflexivity.
Defined.

(** X12: building the inverse circuit never introduces a failure: the
    evaluator returns a matrix on the inverse circuit exactly when it does
    on the circuit. *)
Theorem inverse_accepted_iff (c : circuit) (n : nat) :
  (exists M, gates_to_matrix (V_dagger_circuit c) n = Ok M)
  <-> (exists M, gates_to_matrix c n = Ok M).
Proof.
  assert (Hone : forall c0,
             (exists M, gates_to_matrix c0 n = Ok M) ->
             exists M, gates_to_matrix (V_dagger_circuit c0) n = Ok M).
  { intros c0 [M H]. apply gates_to_matrix_Ok in H. destruct H as [He _].
    rewrite gates_to_matrix_spec, first_error_V_dagger by assumption. eauto. }
  split; [|apply Hone]. intros H. apply Hone in H.
  now rewrite V_dagger_twice in H.
Qed.

(** ** The reconstruction [V @ D @ V†] *)

Lemma reconstruct_accepted V D n :
  first_error n V = None -> first_error n D = None ->
  reconstruct V D n = gates_to_matrix (V_dagger_circuit V ++ D ++ V) n.
Proof.
  intros HV HD. unfold reconstruct. rewrite !gates_to_matrix_app.
  rewrite !gates_to_matrix_spec, HV, HD, first_error_V_dagger by assumption.
  reflexivity.
Qed.

(** X13: when the evaluator accepts the V and D circuits, the matrix the
    driver reconstructs is the evaluation of one circuit: the inverse of
    the V circuit, then the D circuit, then the V circuit. *)
Theorem reconstruction_is_one_circuit (V_circuit D_circuit : circuit)
  (n : nat) :
  Forall (gate_accepted n) V_circuit -> Forall (gate_accepted n) D_circuit ->
  reconstruct V_circuit D_circuit n
  = gates_to_matrix (V_dagger_circuit V_circuit ++ D_circuit ++ V_circuit) n.
Proof.
  intros HV HD. apply reconstruct_accepted; now apply accepted_first_error.
Qed.

Lemma reconstruction_is_one_circuit_witness :
  reconstruct [CNOT 0 1; RZ 1 7] [RZ PI 0] 2
  = gates_to_matrix
      (V_dagger_circuit [CNOT 0 1; RZ 1 7] ++ [RZ PI 0] ++ [CNOT 0 1; RZ 1 7])
      2.
Proof.
  apply (reconstruction_is_one_circuit [CNOT 0 1; RZ 1 7] [RZ PI 0] 2);
    repeat constructor; simpl; lia.
Defined.

(** X14: for V and D circuits with qubit indices in [0, n) and CNOT
    controls distinct from targets, the driver reconstructs a
    [2^n x 2^n] matrix whose unitarity error is exactly 0. *)
Theorem reconstruction_is_unitary (V_circuit D_circuit : circuit) (n : nat) :
  circuit_ok n V_circuit = true -> circuit_ok n D_circuit = true ->
  exists U,
    reconstruct V_circuit D_circuit n = Ok U
    /\ has_shape (2 ^ n) (2 ^ n) U
    /\ identity_error U n = Ok 0%R.
Proof.
  intros HV HD.
  apply circuit_ok_accepted in HV, HD.
  destruct HV as [HVd HVe], HD as [HDd HDe].
  set (T := V_dagger_circuit V_circuit ++ D_circuit ++ V_circuit).
  assert (HTe : first_error n T = None).
  { unfold T. rewrite !first_error_app, first_error_V_dagger by assumption.
    now rewrite HDe. }
  assert (HTd : forallb cnot_distinct T = true).
  { unfold T. rewrite !forallb_app, cnot_distinct_V_dagger by assumption.
    now rewrite HDd, HVd. }
  exists (mono (2 ^ n) (circuit_act T) (circuit_phase T)).
  split; [|split].
  - rewrite reconstruct_accepted by assumption. fold T.
    now rewrite gates_to_matrix_spec, HTe.
  - apply tabulate_has_shape.
  - unfold identity_error. cbv zeta.
    destruct (evaluated_unitary n T HTd HTe) as [E _]. rewrite E.
    apply (difference_self (2 ^ n)), pow2_pos.
Qed.

Lemma reconstruction_is_unitary_witness :
  exists U,
    reconstruct [CNOT 0 1; RZ 1 0] [RZ PI 0; RZ 2 1] 2 = Ok U
    /\ has_shape (2 ^ 2) (2 ^ 2) U
    /\ identity_error U 2 = Ok 0%R.
Proof.
  apply (reconstruction_is_unitary [CNOT 0 1; RZ 1 0] [RZ PI 0; RZ 2 1] 2);
    reflexivity.
Defined.

(** X15: the edge cases of the reconstruction: with an empty D circuit the
    reconstruction is the identity, and with an empty V circuit it is what
    the evaluator returns on the D circuit. *)
Theorem reconstruction_edge_cases (V_circuit D_circuit : circuit) (n : nat) :
  circuit_ok n V_circuit = true ->
  reconstruct V_circuit [] n = Ok (np_eye (2 ^ n))
  /\ reconstruct [] D_circuit n = gates_to_matrix D_circuit n.
Proof.
  intros HV. apply circuit_ok_accepted in HV. destruct HV as [HVd HVe].
  split.
  - unfold reconstruct.
    rewrite gates_to_matrix_V_dagger by assumption.
    rewrite gates_to_matrix_spec, HVe. simpl.
    rewrite matmul_eye_r. f_equal. now apply evaluated_unitary.
  - unfold reconstruct. change (V_dagger_circuit []) with (@nil gate).
    change (gates_to_matrix [] n) with (Ok (np_eye (2 ^ n))). cbn [bind].
    rewrite gates_to_matrix_spec.
    destruct (first_error n D_circuit); cbn [bind]; [reflexivity|].
    now rewrite matmul_eye_l, matmul_eye_r.
Qed.

Lemma reconstruction_edge_cases_witness :
  reconstruct [CNOT 0 1; RZ 1 0] [] 2 = Ok (np_eye (2 ^ 2))
  /\ reconstruct [] [RZ PI 3] 2 = gates_to_matrix [RZ PI 3] 2.
Proof.
  apply (reconstruction_edge_cases [CNOT 0 1; RZ 1 0] [RZ PI 3] 2).
  reflexivity.
Defined.

(** ** The closeness checks of the driver *)

Lemma isclose_true rtol atol a b :
  isclose rtol atol a b = true
  <-> (Cmod (Cminus a b) <= atol + rtol * Cmod b)%R.
Proof.
  unfold isclose.
  destruct (Rle_dec (Cmod (Cminus a b)) (atol + rtol * Cmod b));
    split; auto; discriminate.
Qed.

Lemma np_allclose_true rows cols a b rtol atol :
  has_shape rows cols a ->
  np_allclose a b rtol atol = true
  <-> forall i j, i < rows -> j < cols ->
        (Cmod (Cminus (mget a i j) (mget b i j))
         <= atol + rtol * Cmod (mget b i j))%R.
Proof.
  intros Ha. unfold np_allclose. destruct rows as [|rows].
  - destruct Ha as [Hl _]. rewrite Hl. simpl. split; [intros; lia | auto].
  - rewrite (ncols_has_shape (S rows) cols a) by (assumption || lia).
    destruct Ha as [Hl _]. rewrite Hl. rewrite forallb_forall. split.
    + intros H i j Hi Hj.
      specialize (H i ltac:(apply in_seq; lia)).
      rewrite forallb_forall in H.
      apply isclose_true, H, in_seq. lia.
    + intros H i Hi. apply in_seq in Hi. apply forallb_forall.
      intros j Hj. apply in_seq in Hj. apply isclose_true, H; lia.
Qed.

Lemma Cminus_0_r x : Cminus x C0 = x.
Proof. csolve. Qed.

Lemma mget_diag_of_diag n D i j :
  has_shape n n D -> i < n -> j < n ->
  mget (np_diag (np_diag_extract D)) i j
  = if i =? j then mget D i i else C0.
Proof.
  intros HD Hi Hj.
  assert (Hlen : length (np_diag_extract D) = n).
  { unfold np_diag_extract. rewrite length_map, length_seq.
    rewrite (ncols_has_shape n n D) by (assumption || lia).
    destruct HD as [Hl _]. rewrite Hl. apply Nat.min_id. }
  unfold np_diag. rewrite Hlen, mget_tabulate by assumption.
  destruct (i =? j); [|reflexivity].
  unfold np_diag_extract.
  rewrite (ncols_has_shape n n D) by (assumption || lia).
  destruct HD as [Hl _]. rewrite Hl, Nat.min_id.
  now rewrite nth_map_seq.
Qed.

Lemma is_diagonal_spec n D :
  has_shape n n D ->
  is_diagonal D = true
  <-> forall i j, i < n -> j < n -> i <> j ->
        (Cmod (mget D i j) <= 1 / 10 ^ 10)%R.
Proof.
  intros HD. unfold is_diagonal. cbv zeta.
  rewrite (np_allclose_true n n) by assumption. split.
  - intros H i j Hi Hj Hne. specialize (H i j Hi Hj).
    rewrite (mget_diag_of_diag n) in H by assumption.
    replace (i =? j) with false in H by (symmetry; apply Nat.eqb_neq; lia).
    rewrite Cminus_0_r, Cmod_0 in H. lra.
  - intros H i j Hi Hj. rewrite (mget_diag_of_diag n) by assumption.
    destruct (i =? j) eqn:E.
    + apply Nat.eqb_eq in E. subst j. rewrite Cminus_diag, Cmod_0.
      pose proof (Cmod_nonneg (mget D i i)).
      assert (0 < 1 / 10 ^ 10)%R by (apply Rdiv_lt_0_compat; [lra | apply pow_lt; lra]).
      assert (0 < 1 / 10 ^ 5)%R by (apply Rdiv_lt_0_compat; [lra | apply pow_lt; lra]).
      nra.
    + apply Nat.eqb_neq in E. rewrite Cminus_0_r, Cmod_0.
      specialize (H i j Hi Hj E). lra.
Qed.

(** X16: on a square array the diagonal check of the driver passes exactly
    when every off-diagonal entry has modulus at most [1e-10]; the diagonal
    entries play no part. *)
Theorem is_diagonal_iff (n : nat) (D : matrix) :
  has_shape n n D ->
  is_diagonal D = true
  <-> forall i j, i < n -> j < n -> i <> j ->
        (Cmod (mget D i j) <= 1 / 10 ^ 10)%R.
Proof. apply is_diagonal_spec. Qed.

Lemma is_diagonal_iff_witness :
  is_diagonal (np_eye 2) = true
  <-> forall i j, i < 2 -> j < 2 -> i <> j ->
        (Cmod (mget (np_eye 2) i j) <= 1 / 10 ^ 10)%R.
Proof.
  apply (is_diagonal_iff 2 (np_eye 2)). apply tabulate_has_shape.
Defined.

Lemma rz_circuit_act c i : forallb is_rz c = true -> circuit_act c i = i.
Proof.
  induction c as [|g c IH]; simpl; [reflexivity|]. intros H.
  apply andb_true_iff in H. destruct H as [Hg Hc].
  destruct g; [discriminate|]. simpl. now apply IH.
Qed.

Lemma tenth_pos : (0 < 1 / 10 ^ 10)%R.
Proof. apply Rdiv_lt_0_compat; [lra | apply pow_lt; lra]. Qed.

(** X17: the matrix of a circuit of RZ gates only, with non-negative
    qubits, is exactly diagonal, and passes the diagonal check of the
    driver. *)
Theorem rz_circuit_is_diagonal (c : circuit) (n : nat) :
  forallb is_rz c = true -> Forall (gate_accepted n) c ->
  exists M,
    gates_to_matrix c n = Ok M
    /\ (forall r col, r < 2 ^ n -> col < 2 ^ n -> r <> col ->
          mget M r col = C0)
    /\ is_diagonal M = true.
Proof.
  intros Hrz Hacc. apply accepted_first_error in Hacc.
  exists (mono (2 ^ n) (circuit_act c) (circuit_phase c)).
  assert (Hoff : forall r col, r < 2 ^ n -> col < 2 ^ n -> r <> col ->
            mget (mono (2 ^ n) (circuit_act c) (circuit_phase c)) r col = C0).
  { intros r col Hr Hc Hne. rewrite mget_mono, rz_circuit_act by assumption.
    now replace (r =? col) with false by (symmetry; apply Nat.eqb_neq; lia). }
  split; [now rewrite gates_to_matrix_spec, Hacc|]. split; [exact Hoff|].
  apply (is_diagonal_spec (2 ^ n)); [apply tabulate_has_shape|].
  intros i j Hi Hj Hne. rewrite Hoff, Cmod_0 by assumption.
  pose proof tenth_pos. lra.
Qed.

Lemma rz_circuit_is_diagonal_witness :
  exists M,
    gates_to_matrix [RZ PI 0; RZ 1 5] 2 = Ok M
    /\ (forall r col, r < 2 ^ 2 -> col < 2 ^ 2 -> r <> col ->
          mget M r col = C0)
    /\ is_diagonal M = true.
Proof.
  apply (rz_circuit_is_diagonal [RZ PI 0; RZ 1 5] 2);
    [reflexivity | repeat constructor; simpl; lia].
Defined.

(** X18: the matrix of a CNOT with distinct control and target in [0, n)
    has an off-diagonal entry 1 and fails the diagonal check of the
    driver. *)
Theorem cnot_fails_diagonal_check (control target : Z) (n : nat) :
  gate_ok n (CNOT control target) = true ->
  exists M,
    gates_to_matrix [CNOT control target] n = Ok M
    /\ mget M (Nat.lxor (2 ^ Z.to_nat control) (2 ^ Z.to_nat target))
             (2 ^ Z.to_nat control) = C1
    /\ is_diagonal M = false.
Proof.
  intros H. destruct (gate_ok_accepted n _ H) as [He _].
  simpl in H. unfold qubit_ok in H.
  apply andb_true_iff in H. destruct H as [H _].
  apply andb_true_iff in H. destruct H as [H1 H2].
  apply andb_true_iff in H1, H2. destruct H1 as [H1 H1'], H2 as [H2 H2'].
  apply Z.leb_le in H1, H2. apply Z.ltb_lt in H1', H2'.
  set (cN := Z.to_nat control). set (tN := Z.to_nat target).
  assert (Hc : 2 ^ cN < 2 ^ n) by (apply Nat.pow_lt_mono_r; lia).
  assert (Hj : Nat.lxor (2 ^ cN) (2 ^ tN) < 2 ^ n)
    by (apply lxor_pow2_lt; lia).
  exists (mono (2 ^ n) (cnot_act cN tN) (fun _ => C1)).
  assert (Hget : mget (mono (2 ^ n) (cnot_act cN tN) (fun _ => C1))
                      (Nat.lxor (2 ^ cN) (2 ^ tN)) (2 ^ cN) = C1).
  { rewrite mget_mono by assumption. unfold cnot_act.
    now rewrite Nat.pow2_bits_true, Nat.eqb_refl. }
  split; [|split; [exact Hget|]].
  - rewrite gates_to_matrix_single, gate_matrix_spec, He. reflexivity.
  - destruct (is_diagonal _) eqn:E; [|reflexivity]. exfalso.
    assert (Hs : has_shape (2 ^ n) (2 ^ n)
                   (mono (2 ^ n) (cnot_act cN tN) (fun _ => C1)))
      by apply tabulate_has_shape.
    pose proof (proj1 (is_diagonal_spec _ _ Hs) E) as E'.
    specialize (E' _ _ Hj Hc (lxor_pow2_neq _ _)).
    rewrite Hget, Cmod_1 in E'.
    assert (1 / 10 ^ 10 < 1)%R by lra. lra.
Qed.

Lemma cnot_fails_diagonal_check_witness :
  exists M,
    gates_to_matrix [CNOT 0 1] 2 = Ok M
    /\ mget M (Nat.lxor (2 ^ Z.to_nat 0) (2 ^ Z.to_nat 1)) (2 ^ Z.to_nat 0)
       = C1
    /\ is_diagonal M = false.
Proof.
  apply (cnot_fails_diagonal_check 0 1 2). reflexivity.
Defined.

(** ** The maximum absolute difference as a distance *)

Lemma Cmod_minus_sym a b : Cmod (Cminus a b) = Cmod (Cminus b a).
Proof. unfold Cmod, Cminus, Cplus, Copp. simpl. f_equal. ring. Qed.

Lemma Cmod_sq z : (Cmod z * Cmod z = fst z * fst z + snd z * snd z)%R.
Proof. unfold Cmod. apply sqrt_sqrt. nra. Qed.

Lemma Cmod_triangle x y : (Cmod (Cplus x y) <= Cmod x + Cmod y)%R.
Proof.
  pose proof (Cmod_nonneg x) as Hp. pose proof (Cmod_nonneg y) as Hq.
  pose proof (Cmod_sq x) as Ep. pose proof (Cmod_sq y) as Eq.
  destruct x as [x1 x2], y as [y1 y2]. simpl in *.
  set (p := Cmod (x1, x2)) in *. set (q := Cmod (y1, y2)) in *.
  assert (Hcs : (x1 * y1 + x2 * y2 <= p * q)%R).
  { assert (Hsq : ((x1 * y1 + x2 * y2) * (x1 * y1 + x2 * y2)
                   <= (p * q) * (p * q))%R)
      by (replace ((p * q) * (p * q))%R with ((p * p) * (q * q))%R by ring;
          rewrite Ep, Eq;
          pose proof (Rle_0_sqr (x1 * y2 - x2 * y1)) as Hd;
          unfold Rsqr in Hd; nra).
    assert (0 <= p * q)%R by nra.
    destruct (Rle_dec (x1 * y1 + x2 * y2) (p * q)); [assumption|nra]. }
  unfold Cmod at 1. unfold Cplus. simpl.
  rewrite <- (sqrt_square (p + q)) by lra.
  apply sqrt_le_1_alt. nra.
Qed.

Lemma Cmod_minus_triangle a b c :
  (Cmod (Cminus a c) <= Cmod (Cminus a b) + Cmod (Cminus b c))%R.
Proof.
  replace (Cminus a c) with (Cplus (Cminus a b) (Cminus b c)) by csolve.
  apply Cmod_triangle.
Qed.

Lemma difference_spec rows cols U U' :
  0 < rows -> 0 < cols -> has_shape rows cols U ->
  exists d,
    difference U U' = Ok d
    /\ (forall i j, i < rows -> j < cols ->
          (Cmod (Cminus (mget U i j) (mget U' i j)) <= d)%R)
    /\ (exists i j, i < rows /\ j < cols
                    /\ d = Cmod (Cminus (mget U i j) (mget U' i j))).
Proof.
  intros Hr Hc HU.
  destruct (np_max_abs_tabulate rows cols
              (fun i j => Cminus (mget U i j) (mget U' i j)) Hr Hc)
    as [d [Ed [H1 H2]]].
  exists d. split; [|auto]. unfold difference, mat_sub.
  rewrite (ncols_has_shape rows cols U Hr HU). destruct HU as [HU _].
  now rewrite HU.
Qed.

(** X20: the maximum absolute difference does not depend on the order of
    the two arrays, for arrays of one shape. *)
Theorem difference_symmetric (rows cols : nat) (U U' : matrix) :
  has_shape rows cols U -> has_shape rows cols U' ->
  difference U U' = difference U' U.
Proof.
  intros HU HU'. unfold difference, mat_sub.
  destruct rows as [|rows].
  - destruct HU as [HU _], HU' as [HU' _].
    apply length_zero_iff_nil in HU, HU'. now subst.
  - rewrite (ncols_has_shape (S rows) cols U) by (assumption || lia).
    rewrite (ncols_has_shape (S rows) cols U') by (assumption || lia).
    destruct HU as [HU _], HU' as [HU' _]. rewrite HU, HU'.
    rewrite !np_abs_tabulate. apply f_equal.
    apply map_ext. intros i. apply map_ext. intros j.
    apply Cmod_minus_sym.
Qed.

Lemma difference_symmetric_witness :
  difference (np_eye 2) [[C0; C1]; [C1; C0]]
  = difference [[C0; C1]; [C1; C0]] (np_eye 2).
Proof.
  apply (difference_symmetric 2 2).
  - apply tabulate_has_shape.
  - split; [reflexivity | repeat constructor].
Defined.

(** X21: for arrays of one non-empty shape the maximum absolute difference
    is 0 exactly when the arrays are equal; an array is always an accurate
    reconstruction of itself. *)
Theorem difference_zero_iff (rows cols : nat) (U U' : matrix) :
  0 < rows -> 0 < cols ->
  has_shape rows cols U -> has_shape rows cols U' ->
  (difference U U' = Ok 0%R <-> U = U')
  /\ is_accurate U U = Ok true.
Proof.
  intros Hr Hc HU HU'.
  assert (Hself : difference U U = Ok 0%R).
  { rewrite (has_shape_tabulate rows cols U HU).
    unfold difference, mat_sub.
    rewrite length_tabulate, ncols_tabulate by assumption.
    destruct (np_max_abs_tabulate rows cols
                (fun i j => Cminus (mget (tabulate rows cols (mget U)) i j)
                                   (mget (tabulate rows cols (mget U)) i j))
                Hr Hc)
      as [m [E [_ [i [j [_ [_ Hm]]]]]]].
    rewrite E. f_equal. rewrite Hm, Cminus_diag. apply Cmod_0. }
  split; [split|].
  - intros H.
    destruct (difference_spec rows cols U U' Hr Hc HU) as [d [Ed [Hub _]]].
    rewrite H in Ed. injection Ed as Ed. subst d.
    rewrite (has_shape_tabulate rows cols U HU),
            (has_shape_tabulate rows cols U' HU').
    apply tabulate_ext. intros i j Hi Hj.
    specialize (Hub i j Hi Hj).
    pose proof (Cmod_nonneg (Cminus (mget U i j) (mget U' i j))) as Hn.
    assert (Hz : Cmod (Cminus (mget U i j) (mget U' i j)) = 0%R) by lra.
    apply Cmod_eq_0 in Hz. apply (f_equal fst) in Hz as Hf.
    apply (f_equal snd) in Hz as Hs. unfold Cminus, Cplus, Copp, C0 in Hf, Hs.
    simpl in Hf, Hs. apply C_eq; lra.
  - intros E. subst U'. exact Hself.
  - unfold is_accurate. rewrite Hself. cbn [bind].
    destruct (Rlt_dec 0 (1 / 10 ^ 6)) as [H|H]; [reflexivity|].
    exfalso. apply H. apply Rdiv_lt_0_compat; [lra | apply pow_lt; lra].
Qed.

Lemma difference_zero_iff_witness :
  (difference (np_eye 2) [[C0; C1]; [C1; C0]] = Ok 0%R
   <-> np_eye 2 = [[C0; C1]; [C1; C0]])
  /\ is_accurate (np_eye 2) (np_eye 2) = Ok true.
Proof.
  apply (difference_zero_iff 2 2); try lia.
  - apply tabulate_has_shape.
  - split; [reflexivity | repeat constructor].
Defined.

(** X22: the maximum absolute difference satisfies the triangle
    inequality on arrays of one non-empty shape. *)
Theorem difference_triangle (rows cols : nat) (U V W : matrix) :
  0 < rows -> 0 < cols ->
  has_shape rows cols U -> has_shape rows cols V ->
  exists d_uv d_vw d_uw,
    difference U V = Ok d_uv
    /\ difference V W = Ok d_vw
    /\ difference U W = Ok d_uw
    /\ (d_uw <= d_uv + d_vw)%R.
Proof.
  intros Hr Hc HU HV.
  destruct (difference_spec rows cols U V Hr Hc HU) as [d1 [E1 [H1 _]]].
  destruct (difference_spec rows cols V W Hr Hc HV) as [d2 [E2 [H2 _]]].
  destruct (difference_spec rows cols U W Hr Hc HU)
    as [d3 [E3 [_ [i [j [Hi [Hj H3]]]]]]].
  exists d1, d2, d3. repeat split; try assumption.
  rewrite H3. specialize (H1 i j Hi Hj). specialize (H2 i j Hi Hj).
  pose proof (Cmod_minus_triangle (mget U i j) (mget V i j) (mget W i j)).
  lra.
Qed.

Lemma difference_triangle_witness :
  exists d_uv d_vw d_uw,
    difference (np_eye 2) [[C0; C1]; [C1; C0]] = Ok d_uv
    /\ difference [[C0; C1]; [C1; C0]] (np_eye 2) = Ok d_vw
    /\ difference (np_eye 2) (np_eye 2) = Ok d_uw
    /\ (d_uw <= d_uv + d_vw)%R.
Proof.
  apply (difference_triangle 2 2); try lia.
  - apply tabulate_has_shape.
  - split; [reflexivity | repeat constructor].
Defined.

(** * The dependency bootstrap *)

Lemma runs_app out1 out2 : runs (out1 ++ out2) = runs out1 ++ runs out2.
Proof.
  induction out1 as [|e out1 IH]; simpl; [reflexivity|].
  destruct e; simpl; now rewrite IH.
Qed.

Lemma printc_default msg color :
  color <> "r"%string -> color <> "g"%string -> color <> "y"%string ->
  printc msg color = String.append msg (String.append esc "[0m").
Proof.
  intros Hr Hg Hy. unfold printc, colors. cbn [dict_get].
  rewrite !(String.eqb_sym _ color).
  apply String.eqb_neq in Hr, Hg, Hy. rewrite Hr, Hg, Hy.
  now destruct (String.eqb color String.EmptyString).
Qed.

(** X23: [printc] looks the colour up with a default: for every colour
    other than [r], [g] and [y] the message is printed without a colour
    code and still followed by the reset code. *)
Theorem printc_unknown_colour (msg color : string) :
  color <> "r"%string -> color <> "g"%string -> color <> "y"%string ->
  printc msg color = String.append msg (String.append esc "[0m").
Proof. apply printc_default. Qed.

Lemma printc_unknown_colour_witness :
  printc "hello" "blue" = String.append "hello" (String.append esc "[0m").
Proof.
  apply (printc_unknown_colour "hello" "blue"); discriminate.
Defined.

Section InstallPrereqsFacts.

Variable World : Type.
Variable import_module : World -> string -> option string.
Variable which : World -> string -> bool.
Variable run : World -> list string -> World * Z.
Variable executable : string.
Variable str_CalledProcessError : list string -> Z -> string.

Local Abbreviation ensure :=
  (_ensure_packages import_module which run executable
                    str_CalledProcessError).
Local Abbreviation missing_in := (find_missing import_module).
Local Abbreviation imports := (all_import import_module).

Lemma find_missing_nil w : missing_in w = [] <-> imports w.
Proof.
  unfold find_missing, all_import, import_fails.
  induction pkgs as [|[m p] ps IH]; simpl.
  - split; [contradiction | reflexivity].
  - destruct (import_module w m) eqn:E; simpl.
    + split; [discriminate|]. intros H.
      rewrite (H m) in E by now left. discriminate.
    + rewrite IH. split.
      * intros H m' [Hm|Hm]; [now subst | auto].
      * intros H m' Hm. apply H. now right.
Qed.

Lemma find_missing_incl w : incl (missing_in w) (map snd pkgs).
Proof.
  unfold find_missing. intros p Hp. apply in_map_iff in Hp.
  destruct Hp as [x [E Hx]]. apply filter_In in Hx.
  apply in_map_iff. exists x. tauto.
Qed.

Lemma numpy_missing w :
  existsb (String.eqb "numpy") (missing_in w) = true
  <-> import_module w "numpy" <> None.
Proof.
  unfold find_missing, import_fails. simpl.
  destruct (import_module w "torch"), (import_module w "torchvision"),
    (import_module w "matplotlib"), (import_module w "numpy");
    simpl; split; intros H; try reflexivity; try discriminate;
    try congruence.
Qed.

Lemma first_import_error_None w mods :
  first_import_error import_module w mods = None
  <-> forall m, In m mods -> import_module w m = None.
Proof.
  induction mods as [|m mods IH]; simpl.
  - split; [contradiction | reflexivity].
  - destruct (import_module w m) eqn:E.
    + split; [discriminate|]. intros H.
      rewrite (H m) in E by now left. discriminate.
    + rewrite IH. split.
      * intros H m' [Hm|Hm]; [now subst | auto].
      * intros H m' Hm. apply H. now right.
Qed.

Lemma final_check_cases w :
  (imports w /\ final_check import_module w = ([], Returned))
  \/ (~ imports w
      /\ exists out, final_check import_module w = (out, SystemExit 1)
                     /\ runs out = []).
Proof.
  unfold final_check.
  destruct (first_import_error import_module w (map fst pkgs)) eqn:E.
  - right. split.
    + intros H. apply (proj2 (first_import_error_None w _)) in H.
      congruence.
    + eexists. split; reflexivity.
  - left. split; [|reflexivity].
    exact (proj1 (first_import_error_None w _) E).
Qed.

Lemma conda_step_cases w :
  conda_step which run w (missing_in w) = (w, missing_in w, [])
  \/ (import_module w "numpy" <> None
      /\ exists m1 out1,
           (conda_step which run w (missing_in w) = (w, m1, out1)
            /\ runs out1 = [] /\ which w "conda" = false)
           \/ (conda_step which run w (missing_in w)
               = (fst (run w conda_argv), m1, out1)
               /\ runs out1 = [conda_argv] /\ which w "conda" = true)).
Proof.
  unfold conda_step.
  destruct (existsb (String.eqb "numpy") (missing_in w)) eqn:E;
    [|now left].
  right. split; [now apply numpy_missing|].
  destruct (which w "conda") eqn:Ew.
  - destruct (run w conda_argv) as [w' rc]. simpl.
    destruct (rc =? 0)%Z; do 2 eexists; right; repeat split.
  - do 2 eexists. left. repeat split.
Qed.

Lemma ensure_satisfied w :
  imports w ->
  ensure w
  = (w,
     [Print (printc "All dependencies already satisfied. You are set!"
                    "g")],
     Returned).
Proof.
  intros H. unfold _ensure_packages.
  assert (E : missing_in w = []) by now apply find_missing_nil.
  rewrite E. simpl. rewrite E.
  destruct (final_check_cases w) as [[_ F]|[F _]]; [|contradiction].
  now rewrite F.
Qed.

Lemma ensure_outcome w :
  match ensure w with
  | (w', _, Returned) => imports w'
  | (_, _, SystemExit code) => code = 1%Z
  end.
Proof.
  unfold _ensure_packages.
  destruct (conda_step which run w (missing_in w)) as [[w1 m1] out1].
  destruct (missing_in w1) as [|p l] eqn:E.
  - destruct (final_check_cases w1) as [[H F]|[_ [out [F _]]]];
      rewrite F; auto.
  - destruct (run w1 (pip_argv executable (p :: l))) as [w2 rc].
    destruct (rc =? 0)%Z; [|reflexivity].
    destruct (final_check_cases w2) as [[H F]|[_ [out [F _]]]];
      rewrite F; auto.
Qed.

(** X24: when every package already imports, the script runs no command,
    leaves the environment as it is, prints the single line that all
    dependencies are satisfied and returns normally. *)
Theorem already_satisfied (w : World) :
  all_import import_module w ->
  _ensure_packages import_module which run executable
                   str_CalledProcessError w
  = (w,
     [Print (printc "All dependencies already satisfied. You are set!"
                    "g")],
     Returned).
Proof. apply ensure_satisfied. Qed.

(** X25: the script either returns normally, and then every package
    imports in the environment it leaves, or exits with status 1; it
    never exits with another status. *)
Theorem returns_only_when_all_import (w : World) :
  match _ensure_packages import_module which run executable
                         str_CalledProcessError w with
  | (w', _, Returned) => all_import import_module w'
  | (_, _, SystemExit code) => code = 1%Z
  end.
Proof. apply ensure_outcome. Qed.

(** X26: after a run that returned normally, a second run in the
    environment it left runs no command and only reports that all
    dependencies are satisfied. *)
Theorem second_run_is_quiet (w w' : World) (out : list event) :
  _ensure_packages import_module which run executable
                   str_CalledProcessError w
  = (w', out, Returned) ->
  _ensure_packages import_module which run executable
                   str_CalledProcessError w'
  = (w',
     [Print (printc "All dependencies already satisfied. You are set!"
                    "g")],
     Returned).
Proof.
  intros H. apply ensure_satisfied.
  pose proof (ensure_outcome w) as Ho. now rewrite H in Ho.
Qed.

Lemma ensure_runs w :
  exists w1 m1 out1,
    conda_step which run w (missing_in w) = (w1, m1, out1)
    /\ runs (snd (fst (ensure w)))
       = runs out1
         ++ match missing_in w1 with
            | [] => []
            | l => [pip_argv executable l]
            end.
Proof.
  unfold _ensure_packages.
  destruct (conda_step which run w (missing_in w)) as [[w1 m1] out1].
  exists w1, m1, out1. split; [reflexivity|].
  destruct (missing_in w1) as [|p l] eqn:E.
  - destruct (final_check_cases w1) as [[H F]|[_ [out [F Hr]]]];
      rewrite F; simpl; rewrite !runs_app; simpl;
      [reflexivity | now rewrite Hr].
  - destruct (run w1 (pip_argv executable (p :: l))) as [w2 rc].
    destruct (rc =? 0)%Z.
    + destruct (final_check_cases w2) as [[H F]|[_ [out [F Hr]]]];
        rewrite F; simpl; rewrite !runs_app; simpl; rewrite ?Hr;
        now rewrite app_nil_r.
    + simpl. rewrite !runs_app. simpl. now rewrite app_nil_r.
Qed.

Lemma pip_is_not_conda l : pip_argv executable l <> conda_argv.
Proof. unfold pip_argv, conda_argv. simpl. intros H. discriminate. Qed.

(** X27: the script runs at most two commands.  It runs conda only when
    numpy does not import at the start and conda is on the path; any
    other command it runs is pip, asked to install a non-empty list of
    packages of its own list. *)
Theorem process_discipline (w : World) :
  length (runs (snd (fst
    (_ensure_packages import_module which run executable
                      str_CalledProcessError w)))) <= 2
  /\ (In conda_argv (runs (snd (fst
        (_ensure_packages import_module which run executable
                          str_CalledProcessError w)))) ->
      import_module w "numpy" <> None /\ which w "conda" = true)
  /\ (forall argv,
        In argv (runs (snd (fst
          (_ensure_packages import_module which run executable
                            str_CalledProcessError w)))) ->
        argv = conda_argv
        \/ exists l, l <> [] /\ argv = pip_argv executable l
                     /\ incl l (map snd pkgs)).
Proof.
  destruct (ensure_runs w) as [w1 [m1 [out1 [Ec Er]]]]. rewrite Er.
  assert (Hpip : forall argv,
             In argv (match missing_in w1 with
                      | [] => []
                      | l => [pip_argv executable l]
                      end) ->
             exists l, l <> [] /\ argv = pip_argv executable l
                       /\ incl l (map snd pkgs)).
  { intros argv H. pose proof (find_missing_incl w1) as Hi.
    destruct (missing_in w1) as [|p l]; [contradiction|].
    destruct H as [H|[]]. exists (p :: l). repeat split; auto.
    discriminate. }
  assert (Hlen : length (match missing_in w1 with
                         | [] => []
                         | l => [pip_argv executable l]
                         end) <= 1)
    by (destruct (missing_in w1); simpl; lia).
  destruct (conda_step_cases w) as [E|[Hn [m [o [[E [R Hw]]|[E [R Hw]]]]]]];
    rewrite E in Ec; injection Ec as <- <- <-; rewrite ?R; simpl.
  - split; [lia|]. split.
    + intros H. apply Hpip in H. destruct H as [l [_ [H _]]].
      symmetry in H. now apply pip_is_not_conda in H.
    + intros argv H. right. now apply Hpip.
  - split; [lia|]. split.
    + intros H. apply Hpip in H. destruct H as [l [_ [H _]]].
      symmetry in H. now apply pip_is_not_conda in H.
    + intros argv H. right. now apply Hpip.
  - split; [lia|]. split; [auto|].
    intros argv [H|H]; [now left | right; now apply Hpip].
Qed.

(** X28: a return code 0 of conda is not trusted: when numpy still does
    not import afterwards, pip is run next and numpy is among the
    packages it is asked to install. *)
Theorem conda_success_not_trusted (w w1 : World) :
  import_module w "numpy" <> None ->
  which w "conda" = true ->
  run w conda_argv = (w1, 0%Z) ->
  import_module w1 "numpy" <> None ->
  runs (snd (fst (_ensure_packages import_module which run executable
                                   str_CalledProcessError w)))
  = [conda_argv; pip_argv executable (find_missing import_module w1)]
  /\ In "numpy"%string (find_missing import_module w1).
Proof.
  intros Hn Hw Hr Hn1.
  assert (Hin : In "numpy"%string (missing_in w1)).
  { apply numpy_missing in Hn1. apply existsb_exists in Hn1.
    destruct Hn1 as [x [Hx E]]. apply String.eqb_eq in E. now subst x. }
  split; [|exact Hin].
  destruct (ensure_runs w) as [w1' [m1 [out1 [Ec Er]]]]. rewrite Er.
  unfold conda_step in Ec. apply numpy_missing in Hn.
  rewrite Hn, Hw, Hr in Ec. simpl in Ec. injection Ec as <- <- <-.
  simpl. destruct (missing_in w1); [contradiction | reflexivity].
Qed.

(** X29: when numpy imports and some package does not, pip is the only
    command run; if it returns a non-zero code the script exits with
    status 1 after printing the details of the error, and does not look
    at whether the packages import afterwards. *)
Theorem pip_failure_exits (w w2 : World) (returncode : Z) :
  import_module w "numpy" = None ->
  find_missing import_module w <> [] ->
  run w (pip_argv executable (find_missing import_module w))
  = (w2, returncode) ->
  returncode <> 0%Z ->
  exists out,
    _ensure_packages import_module which run executable
                     str_CalledProcessError w
    = (w2, out, SystemExit 1)
    /\ runs out = [pip_argv executable (find_missing import_module w)]
    /\ last out (Print String.EmptyString)
       = Print (String.append "Details: "
                  (str_CalledProcessError
                     (pip_argv executable (find_missing import_module w))
                     returncode)).
Proof.
  intros Hn Hm Hr Hrc. unfold _ensure_packages, conda_step.
  assert (E : existsb (String.eqb "numpy") (missing_in w) = false).
  { destruct (existsb (String.eqb "numpy") (missing_in w)) eqn:E;
      [|reflexivity]. apply numpy_missing in E. contradiction. }
  rewrite E. destruct (missing_in w) as [|p l] eqn:El; [contradiction|].
  rewrite Hr. apply Z.eqb_neq in Hrc. rewrite Hrc.
  eexists. split; [reflexivity|]. split; reflexivity.
Qed.

End InstallPrereqsFacts.

(** The facts above at work in a small environment. *)

Lemma already_satisfied_witness :
  _ensure_packages toy_import (fun _ _ => false) toy_run "python"
                   (fun _ _ => "failed"%string)
                   ["torch"; "torchvision"; "matplotlib"; "numpy"]%string
  = (["torch"; "torchvision"; "matplotlib"; "numpy"]%string,
     [Print (printc "All dependencies already satisfied. You are set!" "g")],
     Returned).
Proof.
  apply (already_satisfied (list string) toy_import (fun _ _ => false)
                           toy_run "python" (fun _ _ => "failed"%string)).
  intros m Hm. simpl in Hm.
  destruct Hm as [<-|[<-|[<-|[<-|[]]]]]; reflexivity.
Defined.

Lemma second_run_is_quiet_witness :
  _ensure_packages toy_import (fun _ _ => false) toy_run "python"
                   (fun _ _ => "failed"%string)
                   ["torch"; "torchvision"; "matplotlib"; "numpy"]%string
  = (["torch"; "torchvision"; "matplotlib"; "numpy"]%string,
     [Print (printc "All dependencies already satisfied. You are set!" "g")],
     Returned).
Proof.
  apply (second_run_is_quiet
           (list string) toy_import (fun _ _ => false) toy_run "python"
           (fun _ _ => "failed"%string) []
           ["torch"; "torchvision"; "matplotlib"; "numpy"]%string
           (snd (fst (_ensure_packages toy_import (fun _ _ => false) toy_run
                                       "python" (fun _ _ => "failed"%string)
                                       [])))).
  reflexivity.
Defined.

Lemma process_discipline_witness :
  length (runs (snd (fst
    (_ensure_packages toy_import (fun _ _ => true) toy_run "python"
                      (fun _ _ => "failed"%string) ["torch"%string])))) <= 2
  /\ (In conda_argv (runs (snd (fst
        (_ensure_packages toy_import (fun _ _ => true) toy_run "python"
                          (fun _ _ => "failed"%string) ["torch"%string])))) ->
      toy_import ["torch"%string] "numpy" <> None /\ true = true)
  /\ (forall argv,
        In argv (runs (snd (fst
          (_ensure_packages toy_import (fun _ _ => true) toy_run "python"
                            (fun _ _ => "failed"%string)
                            ["torch"%string])))) ->
        argv = conda_argv
        \/ exists l, l <> [] /\ argv = pip_argv "python" l
                     /\ incl l (map snd pkgs)).
Proof.
  apply (process_discipline (list string) toy_import (fun _ _ => true)
                            toy_run "python" (fun _ _ => "failed"%string)
                            ["torch"%string]).
Defined.

Lemma conda_success_not_trusted_witness :
  runs (snd (fst (_ensure_packages toy_import (fun _ _ => true) toy_run
                                   "python" (fun _ _ => "failed"%string)
                                   ["torch"%string])))
  = [conda_argv;
     pip_argv "python" (find_missing toy_import ["torch"%string])]
  /\ In "numpy"%string (find_missing toy_import ["torch"%string]).
Proof.
  apply (conda_success_not_trusted
           (list string) toy_import (fun _ _ => true) toy_run "python"
           (fun _ _ => "failed"%string) ["torch"%string] ["torch"%string]).
  - discriminate.
  - reflexivity.
  - reflexivity.
  - discriminate.
Defined.

Lemma pip_failure_exits_witness :
  exists out,
    _ensure_packages toy_import (fun _ _ => false)
                     (fun (w : list string) _ => (w, 1%Z)) "python"
                     (fun _ _ => "failed"%string) ["numpy"%string]
    = (["numpy"%string], out, SystemExit 1)
    /\ runs out
       = [pip_argv "python" (find_missing toy_import ["numpy"%string])]
    /\ last out (Print String.EmptyString)
       = Print (String.append "Details: "
                  ((fun _ _ => "failed"%string)
                     (pip_argv "python"
                               (find_missing toy_import ["numpy"%string]))
                     1%Z)).
Proof.
  apply (pip_failure_exits
           (list string) toy_import (fun _ _ => false)
           (fun (w : list string) _ => (w, 1%Z)) "python"
           (fun _ _ => "failed"%string) ["numpy"%string] ["numpy"%string]
           1%Z).
  - reflexivity.
  - discriminate.
  - reflexivity.
  - discriminate.
Defined.

(** * Circuits of CNOT gates only *)

Lemma cnot_circuit_phase c i :
  forallb is_cnot c = true -> circuit_phase c i = C1.
Proof.
  revert i. induction c as [|g c IH]; simpl; intros i H; [reflexivity|].
  apply andb_true_iff in H. destruct H as [Hg Hc].
  destruct g; [|discriminate]. simpl. rewrite IH by assumption.
  apply Cmult_1_l.
Qed.

(** X30: the matrix of a circuit of CNOT gates only has no entry other
    than 0 and 1, with exactly one 1 in each column. *)
Theorem cnot_circuit_is_zero_one (c : circuit) (n : nat) (M : matrix) :
  forallb is_cnot c = true -> gates_to_matrix c n = Ok M ->
  (forall r col, r < 2 ^ n -> col < 2 ^ n ->
     mget M r col = C0 \/ mget M r col = C1)
  /\ forall col, col < 2 ^ n ->
       exists row, row < 2 ^ n /\
         forall r, r < 2 ^ n -> mget M r col = if r =? row then C1 else C0.
Proof.
  intros Hc H. apply gates_to_matrix_Ok in H. destruct H as [He HM]. subst M.
  split.
  - intros r col Hr Hcol. rewrite mget_mono, cnot_circuit_phase by assumption.
    destruct (r =? circuit_act c col); auto.
  - intros col Hcol. exists (circuit_act c col).
    split; [now apply circuit_act_lt|]. intros r Hr.
    now rewrite mget_mono, cnot_circuit_phase by assumption.
Qed.

Lemma cnot_circuit_is_zero_one_witness :
  (forall r col, r < 2 ^ 1 -> col < 2 ^ 1 ->
     mget [[C1; C1]; [C0; C0]] r col = C0
     \/ mget [[C1; C1]; [C0; C0]] r col = C1)
  /\ forall col, col < 2 ^ 1 ->
       exists row, row < 2 ^ 1 /\
         forall r, r < 2 ^ 1 ->
           mget [[C1; C1]; [C0; C0]] r col = if r =? row then C1 else C0.
Proof.
  apply (cnot_circuit_is_zero_one [CNOT 0 0] 1); [reflexivity|].
  rewrite gates_to_matrix_spec. simpl. f_equal.
  unfold mono, tabulate. simpl. now rewrite Cmult_1_l.
Defined.
